(** * The recall scorer of sae-auto-interp, embedded in Rocq

    Source: [sae_auto_interp/scorers/recall/recall.py].

    The scorer builds labelled [Sample] objects from two pools of raw
    examples, cuts them into batches, sends one judge request per batch to a
    language-model backend and writes the judge's verdict into the [predicted]
    attribute of every sample.

    Python objects are mutable and passed by reference, so samples live in a
    heap and the lists handled by the scorer are lists of addresses.  Python
    code may raise, and the scorer talks to a backend, so every method is a
    computation in a state-and-exception monad over a world made of the heap
    and a chronological trace of backend requests and attribute writes. *)

From stdpp Require Import gmap strings list fin_maps pretty.
From Stdlib Require Import Ascii PrimFloat.

Open Scope string_scope.
Open Scope list_scope.
Open Scope Z_scope.

(** ** Python values, exceptions *)

(** The exceptions the scorer can raise, by class.  [BackendError] stands
    for whatever the client raises on a failed request. *)
Inductive exn : Type :=
| KeyError (key : string)
| IndexError
| ValueError
| TypeError
| BackendError (msg : string).

Inductive result (A : Type) : Type :=
| Ok (a : A)
| Raise (e : exn).
Arguments Ok {A} a.
Arguments Raise {A} e.

(** A scalar inside a structured (JSON) response, as [json] decodes it. *)
Inductive jvalue : Type :=
| JNull
| JBool (b : bool)
| JInt (z : Z)
| JFloat (f : float)
| JStr (s : string).

(** A Python [str] is a sequence of Unicode code points.  The strings the
    scorer only passes on or concatenates (sample texts, prompts, field
    names) are kept as [string]s; the free-text answer, of which the scorer
    reads the last character, is the list of its code points. *)
Abbreviation codepoint := N (only parsing).

(** The code points of a literal written in ASCII. *)
Fixpoint codes (s : string) : list codepoint :=
  match s with
  | EmptyString => []
  | String c rest => N_of_ascii c :: codes rest
  end.

(** What [client.generate] hands back: free text, or the mapping decoded
    from a structured answer. *)
Inductive Response : Type :=
| RText (s : list codepoint)
| RStruct (m : gmap string jvalue).

(** [v == 1] in Python: the integer one, the float [1.0] or [True]. *)
Definition py_eq_1 (v : jvalue) : bool :=
  match v with
  | JInt z => z =? 1
  | JFloat f => PrimFloat.eqb f 1%float
  | JBool b => b
  | JNull | JStr _ => false
  end.

(** [s[-1]] on a string: its last character, [IndexError] on [""]. *)
Fixpoint last_char (s : list codepoint) : option codepoint :=
  match s with
  | [] => None
  | [c] => Some c
  | _ :: rest => last_char rest
  end.

(** The decimal digits of the interpreter's Unicode character database:
    [decimal c] is [unicodedata.decimal(c)], the value of a character of
    category Nd and nothing for any other character.  The digits ['0'] to
    ['9'] (codes 48 to 57) are in every version of the database, with the
    values 0 to 9; so are the decimal digits of other scripts (Arabic-Indic,
    Devanagari, fullwidth, ...), and which scripts there are depends on the
    version, so the table is a parameter of the development. *)
Class Unicode : Type := {
  decimal : codepoint → option Z;
  decimal_ascii (d : N) : (d < 10)%N → decimal (48 + d) = Some (Z.of_N d);
}.

(** [int(c)] on a one-character string: the value of a decimal digit of
    any script, and [ValueError] on anything else (a lone sign, blank or
    underscore, a superscript or a fraction too). *)
Definition py_int_char `{Unicode} (c : codepoint) : result Z :=
  match decimal c with
  | Some d => Ok d
  | None => Raise ValueError
  end.

(** [range(start, stop, step)], as the list it enumerates. *)
Definition py_range (start stop step : Z) : result (list Z) :=
  if step =? 0 then Raise ValueError
  else
    let n := if 0 <? step then (stop - start + step - 1) / step
             else (start - stop - step - 1) / (- step) in
    Ok (map (λ k : nat, start + Z.of_nat k * step) (seq 0 (Z.to_nat n))).

Definition clamp_index (len i : Z) : Z :=
  if i <? 0 then Z.max 0 (i + len) else Z.min i len.

(** [l[i:j]]: both ends clamped to the list, never an error. *)
Definition py_slice {A} (l : list A) (i j : Z) : list A :=
  let len := Z.of_nat (length l) in
  let lo := clamp_index len i in
  let hi := clamp_index len j in
  take (Z.to_nat (hi - lo)) (drop (Z.to_nat lo) l).

(** [sep.join(parts)] *)
Fixpoint join (sep : string) (parts : list string) : string :=
  match parts with
  | [] => ""
  | [p] => p
  | p :: rest => p +:+ sep +:+ join sep rest
  end.

Fixpoint enumerate_from {A} (i : nat) (l : list A) : list (nat * A) :=
  match l with
  | [] => []
  | x :: rest => (i, x) :: enumerate_from (S i) rest
  end.

(** [enumerate(l)] *)
Definition enumerate {A} (l : list A) : list (nat * A) := enumerate_from 0 l.

(** ** The data model *)

(** [class Sample] (lines 13-18); [predicted] defaults to [None]. *)
Record Sample : Type := mkSample {
  text : string;
  quantile : Z;
  ground_truth : bool;
  predicted : option bool;
}.

Global Instance Sample_inhabited : Inhabited Sample :=
  populate (mkSample "" 0 false None).

(** The plain record [Sample.default] returns (lines 41-47). *)
Record ScoredSample : Type := mkScored {
  r_text : string;
  r_quantile : Z;
  r_ground_truth : bool;
  r_predicted : option bool;
}.

(** A raw example: only its [tokens] are read. *)
Record Example : Type := { tokens : list Z }.

Record FeatureRecord : Type := { random_examples : list Example }.

(** [ScorerInput], as [scripts/score.py] builds it. *)
Record ScorerInput : Type := {
  record : FeatureRecord;
  test_examples : list (list Example);
  explanation : string;
}.

(** References to heap objects. *)
Abbreviation addr := nat (only parsing).

(** ** Collaborators *)

(** The two imports of the module whose code is not part of the scorer:
    the prompt template and the response-model builder, the latter taken
    together with its [model_json_schema()]. *)
Class Imports : Type := {
  Schema : Type;
  clean_prompt : string → string → bool → string;
  create_response_model : nat → Schema;
}.

Section Scorer.
Context `{Imports} `{Unicode}.

Record Request : Type := {
  prompt : string;
  schema : option Schema;
  req_max_tokens : Z;
  req_temperature : float;
}.

(** The backend is an opaque service: [generate k req] is its answer to the
    [k]-th request it receives, so equal prompts may be answered
    differently. *)
Record Client : Type := { generate : nat → Request → result Response }.

Record Tokenizer : Type := { decode : list Z → string }.

(** The attributes set by [RecallScorer.__init__] (lines 52-67). *)
Record RecallScorer : Type := {
  client : Client;
  tokenizer : Tokenizer;
  echo : bool;
  temperature : float;
  max_tokens : Z;
  batch_size : Z;
}.

(** ** Worlds and computations *)

Inductive event : Type :=
| EGenerate (req : Request)
| ESetPredicted (a : addr) (v : bool).

Record world : Type := mkWorld {
  heap : list Sample;
  trace : list event;
}.

Definition M (A : Type) : Type := world → result A * world.

Definition ret {A} (a : A) : M A := λ w, (Ok a, w).

Definition bind {A B} (m : M A) (k : A → M B) : M B :=
  λ w, match m w with
       | (Ok a, w') => k a w'
       | (Raise e, w') => (Raise e, w')
       end.

Definition lift {A} (r : result A) : M A := λ w, (r, w).

End Scorer.

Notation "x <~ m ; k" := (bind m (λ x, k))
  (at level 20, m at level 100, k at level 200, only parsing).

Section Methods.
Context `{Imports} `{Unicode}.

(** A [for] loop threading its state through the body. *)
Fixpoint for_ {A S} (xs : list A) (body : S → A → M S) (acc : S) : M S :=
  match xs with
  | [] => ret acc
  | x :: rest => acc' <~ body acc x; for_ rest body acc'
  end.

(** *** Heap primitives *)

(** [Sample(text=..., quantile=..., ground_truth=...)]: a fresh object. *)
Definition new_Sample (t : string) (q : Z) (gt : bool) : M addr :=
  λ w, (Ok (length (heap w)),
        mkWorld (heap w ++ [mkSample t q gt None]) (trace w)).

Definition get_text (a : addr) : M string :=
  λ w, (Ok (text (heap w !!! a)), w).

Definition with_predicted (v : bool) (s : Sample) : Sample :=
  mkSample (text s) (quantile s) (ground_truth s) (Some v).

(** [sample.predicted = v] *)
Definition set_predicted (a : addr) (v : bool) : M unit :=
  λ w, (Ok tt,
        mkWorld (alter (with_predicted v) a (heap w))
                (trace w ++ [ESetPredicted a v])).

Definition calls_of (tr : list event) : list Request :=
  omap (λ e, match e with EGenerate r => Some r | _ => None end) tr.

Definition writes_of (tr : list event) : list (addr * bool) :=
  omap (λ e, match e with ESetPredicted a v => Some (a, v) | _ => None end) tr.

(** Hands a request to the backend; the ticket is its sequence number. *)
Definition send (req : Request) : M nat :=
  λ w, (Ok (length (calls_of (trace w))),
        mkWorld (heap w) (trace w ++ [EGenerate req])).

End Methods.

(** ** asyncio.gather *)

Section Asyncio.
Context `{Imports} `{Unicode}.

(** The order in which pending tasks complete is the event loop's choice:
    at every step the next number of [choices] (read modulo the number of
    tasks still pending, 0 once the list is exhausted) picks the task that
    completes next.  Every list of choices is a schedule, and every
    completion order is the reading of some list. *)
Fixpoint completion_order (choices : list nat) (pending : list nat)
    (fuel : nat) : list nat :=
  match fuel with
  | O => []
  | S fuel' =>
      let k := (hd 0 choices `mod` length pending)%nat in
      match pending !! k with
      | Some i => i :: completion_order (tl choices) (delete k pending) fuel'
      | None => []
      end
  end.

(** [await asyncio.gather] over tasks suspended at their [await]:
    each one is resumed when its turn comes and stores its result in the
    slot of its position; once all are done the slots are returned in task
    order.  The first exception raised by a task is the one the awaiting
    caller sees, at once: the tasks still pending are not waited for. *)
Definition gather {A} (choices : list nat) (tasks : list (M A)) : M (list A) :=
  let n := length tasks in
  slots <~ for_ (completion_order choices (seq 0 n) n)
             (λ slots i,
                match tasks !! i with
                | Some task => r <~ task; ret (<[i := Some r]> slots)
                | None => ret slots
                end)
             (replicate n None);
  ret (omap id slots).

End Asyncio.

(** ** Methods of [Sample] *)

Module Sample.
Section Methods.
Context `{Imports} `{Unicode}.

(** [Sample._prepare_samples] (lines 20-39) *)
Definition _prepare_samples (examples : list Example) (quantile : Z)
    (ground_truth : bool) (tokenizer : Tokenizer) : M (list addr) :=
  for_ examples
    (λ samples example,
       s <~ new_Sample (decode tokenizer (tokens example)) quantile ground_truth;
       ret (samples ++ [s]))
    [].

(** [Sample.default] (lines 41-47) *)
Definition default (self : addr) : M ScoredSample :=
  λ w, let s := heap w !!! self in
       (Ok (mkScored (text s) (quantile s) (ground_truth s) (predicted s)), w).

End Methods.
End Sample.

(** ** Methods of [RecallScorer] *)

Module RecallScorer.
Section Methods.
Context `{Imports} `{Unicode}.

Definition newline : string := String (ascii_of_nat 10) "".

(** Lines 89-105 of [_prepare]: the flat list [samples]. *)
Definition _prepare_flat (self : RecallScorer)
    (activating_examples : list (list Example))
    (incorrect_examples : list Example) : M (list addr) :=
  samples <~ Sample._prepare_samples incorrect_examples (-1) false (tokenizer self);
  for_ (enumerate activating_examples)
    (λ samples '(i, examples),
       more <~ Sample._prepare_samples examples (Z.of_nat i + 1) true
                 (tokenizer self);
       ret (samples ++ more))
    samples.

(** [RecallScorer._prepare] (lines 87-110) *)
Definition _prepare (self : RecallScorer)
    (activating_examples : list (list Example))
    (incorrect_examples : list Example) : M (list (list addr)) :=
  samples <~ _prepare_flat self activating_examples incorrect_examples;
  starts <~ lift (py_range 0 (Z.of_nat (length samples)) (batch_size self));
  ret (map (λ i, py_slice samples i (i + batch_size self)) starts).

(** [RecallScorer.build_prompt] (lines 133-148) *)
Definition build_prompt (self : RecallScorer) (batch : list addr)
    (explanation : string) (batched : bool) : M string :=
  lines <~ for_ (enumerate batch)
             (λ lines '(i, sample),
                t <~ get_text sample;
                ret (lines ++ ["Example " +:+ pretty i +:+ ": " +:+ t]))
             [];
  ret (clean_prompt explanation (join newline lines) batched).

(** The field of the structured answer for position [i]: [f"example_{i}"]. *)
Definition example_key (i : nat) : string := "example_" +:+ pretty i.

(** [selections[key]] *)
Definition getitem (selections : Response) (key : string) : result jvalue :=
  match selections with
  | RStruct m =>
      match m !! key with
      | Some v => Ok v
      | None => Raise (KeyError key)
      end
  | RText _ => Raise TypeError
  end.

(** [selections[-1]] *)
Definition getitem_last (selections : Response) : result codepoint :=
  match selections with
  | RText s =>
      match last_char s with
      | Some c => Ok c
      | None => Raise IndexError
      end
  | RStruct _ => Raise (KeyError "-1")
  end.

(** [batch[0]] *)
Definition first (batch : list addr) : result addr :=
  match batch with
  | a :: _ => Ok a
  | [] => Raise IndexError
  end.

(** A [query] coroutine suspended at its [await self.client.generate(...)]. *)
Record Pending : Type := {
  pend_batch : list addr;
  pend_batched : bool;
  pend_ticket : nat;
  pend_request : Request;
}.

(** [RecallScorer.query] up to its [await] (lines 156-170, 176-179): the
    request is built and handed to the client. *)
Definition query_send (self : RecallScorer) (batch : list addr)
    (explanation : string) : M Pending :=
  let batched := (1 <? length batch)%nat in
  prompt <~ build_prompt self batch explanation batched;
  let schema := create_response_model (length batch) in
  let req :=
    if batched
    then {| prompt := prompt; schema := Some schema;
            req_max_tokens := max_tokens self;
            req_temperature := temperature self |}
    else {| prompt := prompt; schema := None;
            req_max_tokens := max_tokens self;
            req_temperature := temperature self |} in
  ticket <~ send req;
  ret {| pend_batch := batch; pend_batched := batched;
         pend_ticket := ticket; pend_request := req |}.

(** [RecallScorer.query] from its [await] on (lines 166-183): the answer
    arrives (or the client's exception does) and is written into the
    samples. *)
Definition query_resume (self : RecallScorer) (p : Pending) : M (list addr) :=
  let batch := pend_batch p in
  selections <~ lift (generate (client self) (pend_ticket p) (pend_request p));
  if pend_batched p then
    _ <~ for_ (enumerate batch)
           (λ _ '(i, sample),
              v <~ lift (getitem selections (example_key i));
              set_predicted sample (py_eq_1 v))
           tt;
    ret batch
  else
    c <~ lift (getitem_last selections);
    n <~ lift (py_int_char c);
    sample <~ lift (first batch);
    _ <~ set_predicted sample (n =? 1);
    ret batch.

(** [RecallScorer.query] (lines 150-183), run on its own. *)
Definition query (self : RecallScorer) (batch : list addr)
    (explanation : string) : M (list addr) :=
  p <~ query_send self batch explanation;
  query_resume self p.

(** [RecallScorer.process_batches] (lines 112-131).  Building [tasks] only
    creates the coroutines; [gather] starts them in task order, each running
    to its [await], and resumes them as their answers arrive.

    Every [await self.client.generate(...)] is taken to suspend, so that the
    trace holds the requests of all batches before the first write.  A
    client that answers without suspending lets a task run on to its writes
    before the next task is started: the writes of a batch then come before
    the requests of the later batches, and nothing else differs in what a
    returning call sends, returns and leaves in the heap.  The order between
    the requests of some batches and the writes of others is therefore no
    property of the scorer: the theorems read the trace through [calls_of]
    (number, order and content of the requests) and [writes_of] (the writes
    and their order), and relate a write to the request of its own batch
    only. *)
Definition process_batches (self : RecallScorer) (choices : list nat)
    (batches : list (list addr)) (explanation : string)
    : M (list ScoredSample) :=
  launched <~ for_ batches
                (λ ps batch,
                   p <~ query_send self batch explanation;
                   ret (ps ++ [p]))
                [];
  results <~ gather choices (map (query_resume self) launched);
  for_ results
    (λ out sublist,
       for_ sublist
         (λ out item, r <~ Sample.default item; ret (out ++ [r]))
         out)
    [].

(** [RecallScorer.__call__] (lines 69-85) *)
Definition __call__ (self : RecallScorer) (choices : list nat)
    (scorer_in : ScorerInput) : M (list ScoredSample) :=
  samples <~ _prepare self (test_examples scorer_in)
               (random_examples (record scorer_in));
  results <~ process_batches self choices samples (explanation scorer_in);
  ret results.

End Methods.
End RecallScorer.

(** * Properties *)

(** ** The Python helpers on small inputs *)

Example py_range_by_2 : py_range 0 5 2 = Ok [0; 2; 4].
Proof. reflexivity. Qed.

Example py_range_downwards : py_range 5 0 (-2) = Ok [5; 3; 1].
Proof. reflexivity. Qed.

Example py_range_wrong_way : py_range 0 5 (-2) = Ok [].
Proof. reflexivity. Qed.

Example py_range_step_0 : py_range 0 5 0 = Raise ValueError.
Proof. reflexivity. Qed.

Example py_slice_past_the_end : py_slice [1; 2; 3; 4; 5] 4 6 = [5].
Proof. reflexivity. Qed.

Example py_slice_negative : py_slice [1; 2; 3; 4; 5] (-2) 5 = [4; 5].
Proof. reflexivity. Qed.

Example last_char_of_text : last_char (codes "Answer: 1") = Some 49%N.
Proof. reflexivity. Qed.

Example py_eq_1_values :
  map py_eq_1 [JInt 1; JInt 0; JBool true; JFloat 1; JStr "1"; JNull]
  = [true; false; true; true; false; false].
Proof. reflexivity. Qed.

Example join_lines : join ", " ["a"; "b"; "c"] = "a, b, c".
Proof. reflexivity. Qed.

Example completion_order_of_choices :
  completion_order [2; 0; 5]%nat (seq 0 4) 4 = [2; 0; 3; 1]%nat.
Proof. reflexivity. Qed.

(** ** What a run leaves behind *)

Section Effects.
Context `{Imports} `{Unicode}.

(** A batch of [predicted] writes, oldest first, and the world after them. *)
Definition write_events (ws : list (addr * bool)) : list event :=
  map (λ '(a, v), ESetPredicted a v) ws.

Definition apply_writes (ws : list (addr * bool)) (h : list Sample) : list Sample :=
  foldl (λ h '(a, v), alter (with_predicted v) a h) h ws.

Definition after_writes (ws : list (addr * bool)) (w : world) : world :=
  mkWorld (apply_writes ws (heap w)) (trace w ++ write_events ws).

(** The sample a fresh example becomes. *)
Definition fresh (tok : Tokenizer) (q : Z) (gt : bool) (e : Example) : Sample :=
  mkSample (decode tok (tokens e)) q gt None.

(** The contents of the objects a list of references points to. *)
Definition deref (h : list Sample) (l : list addr) : list Sample :=
  map (λ a, h !!! a) l.

Definition snapshot (s : Sample) : ScoredSample :=
  mkScored (text s) (quantile s) (ground_truth s) (predicted s).

Lemma world_eta (w : world) : mkWorld (heap w) (trace w) = w.
Proof. by destruct w. Qed.

Lemma after_writes_nil w : after_writes [] w = w.
Proof. unfold after_writes; simpl. by rewrite app_nil_r, world_eta. Qed.

Lemma apply_writes_app ws1 ws2 h :
  apply_writes (ws1 ++ ws2) h = apply_writes ws2 (apply_writes ws1 h).
Proof. unfold apply_writes. by rewrite foldl_app. Qed.

Lemma after_writes_app ws1 ws2 w :
  after_writes (ws1 ++ ws2) w = after_writes ws2 (after_writes ws1 w).
Proof.
  unfold after_writes; simpl.
  rewrite apply_writes_app. unfold write_events.
  by rewrite map_app, app_assoc.
Qed.

Lemma after_writes_cons a v ws w :
  after_writes ((a, v) :: ws) w
  = after_writes ws (mkWorld (alter (with_predicted v) a (heap w))
                             (trace w ++ [ESetPredicted a v])).
Proof.
  unfold after_writes; simpl. by rewrite <- app_assoc.
Qed.

Lemma length_apply_writes ws h : length (apply_writes ws h) = length h.
Proof.
  revert h; induction ws as [|[a v] ws IH]; intros h; simpl; [done|].
  unfold apply_writes in *; simpl. rewrite IH. apply length_alter.
Qed.

Lemma apply_writes_lookup_notin ws h a :
  a ∉ ws.*1 → apply_writes ws h !! a = h !! a.
Proof.
  revert h; induction ws as [|[b v] ws IH]; intros h Hn; [done|].
  rewrite fmap_cons, not_elem_of_cons in Hn. destruct Hn as [Hne Hn].
  change (apply_writes ws (alter (with_predicted v) b h) !! a = h !! a).
  rewrite IH by done. by apply list_lookup_alter_ne.
Qed.

Lemma apply_writes_lookup_in ws h a v :
  NoDup ws.*1 → (a, v) ∈ ws →
  apply_writes ws h !! a = with_predicted v <$> h !! a.
Proof.
  revert h; induction ws as [|[b u] ws IH]; intros h Hnd Hin.
  - by apply elem_of_nil in Hin.
  - rewrite fmap_cons in Hnd. apply NoDup_cons in Hnd as [Hb Hnd].
    change (apply_writes ws (alter (with_predicted u) b h) !! a
            = with_predicted v <$> h !! a).
    apply elem_of_cons in Hin as [Heq | Hin].
    + injection Heq as -> ->.
      rewrite apply_writes_lookup_notin by done.
      apply list_lookup_alter_eq.
    + assert (a ≠ b) as Hne.
      { intros ->. apply Hb. apply list_elem_of_fmap. by exists (b, v). }
      rewrite IH by done. by rewrite list_lookup_alter_ne.
Qed.

(** Writes never touch [text], [quantile] or [ground_truth]. *)
Definition labels (s : Sample) : string * Z * bool :=
  (text s, quantile s, ground_truth s).

Lemma apply_writes_labels ws h a :
  labels <$> apply_writes ws h !! a = labels <$> h !! a.
Proof.
  revert h; induction ws as [|[b v] ws IH]; intros h; [done|].
  change (labels <$> apply_writes ws (alter (with_predicted v) b h) !! a
          = labels <$> h !! a).
  rewrite IH. rewrite list_lookup_alter.
  case_decide; [subst b|done].
  by destruct (h !! a).
Qed.

(** Writes to distinct objects commute. *)
Lemma apply_writes_Permutation ws ws' h :
  NoDup ws.*1 → ws ≡ₚ ws' → apply_writes ws h = apply_writes ws' h.
Proof.
  intros Hnd Hp. apply list_eq; intros a.
  assert (NoDup ws'.*1) as Hnd' by (by rewrite <- Hp).
  destruct (decide (a ∈ ws.*1)) as [Hin|Hin].
  - apply list_elem_of_fmap in Hin as [[a' v] [Heq Hin]].
    simpl in Heq; subst a.
    rewrite (apply_writes_lookup_in ws h a' v) by done.
    rewrite (apply_writes_lookup_in ws' h a' v); [done|done|by rewrite <- Hp].
  - rewrite apply_writes_lookup_notin by done.
    rewrite apply_writes_lookup_notin; [done|by rewrite <- Hp].
Qed.

End Effects.

(** ** Running the loops *)

Section Runs.
Context `{Imports} `{Unicode}.

Lemma enumerate_from_lookup {A} i (l : list A) j :
  enumerate_from i l !! j = (λ x, ((i + j)%nat, x)) <$> l !! j.
Proof.
  revert i j; induction l as [|x l IH]; intros i [|j]; simpl; try done.
  - by rewrite Nat.add_0_r.
  - rewrite IH. by rewrite Nat.add_succ_r.
Qed.

Lemma length_enumerate_from {A} i (l : list A) :
  length (enumerate_from i l) = length l.
Proof. revert i; induction l; intros; simpl; auto. Qed.

(** *** Building samples *)

Lemma _prepare_samples_loop examples q gt tok acc w :
  for_ examples
    (λ samples example,
       s <~ new_Sample (decode tok (tokens example)) q gt;
       ret (samples ++ [s]))
    acc w
  = (Ok (acc ++ seq (length (heap w)) (length examples)),
     mkWorld (heap w ++ map (fresh tok q gt) examples) (trace w)).
Proof.
  revert acc w; induction examples as [|e es IH]; intros acc w; simpl.
  - unfold ret. by rewrite !app_nil_r, world_eta.
  - unfold bind at 1. unfold new_Sample at 1. unfold bind at 1; simpl.
    unfold ret at 1. rewrite IH; simpl.
    rewrite length_app; simpl. rewrite Nat.add_1_r.
    by rewrite <- !app_assoc.
Qed.

Lemma _prepare_samples_run examples q gt tok w :
  Sample._prepare_samples examples q gt tok w
  = (Ok (seq (length (heap w)) (length examples)),
     mkWorld (heap w ++ map (fresh tok q gt) examples) (trace w)).
Proof. unfold Sample._prepare_samples. by rewrite _prepare_samples_loop. Qed.

(** The samples of the activating groups [groups], the first of which has
    index [i]. *)
Definition labelled_from (tok : Tokenizer) (i : nat)
    (groups : list (list Example)) : list Sample :=
  concat (map (λ '(j, g), map (fresh tok (Z.of_nat j + 1) true) g)
              (enumerate_from i groups)).

Definition assembled (tok : Tokenizer) (activating : list (list Example))
    (incorrect : list Example) : list Sample :=
  map (fresh tok (-1) false) incorrect ++ labelled_from tok 0 activating.

Lemma length_labelled_from tok i groups :
  length (labelled_from tok i groups) = length (concat groups).
Proof.
  unfold labelled_from. revert i; induction groups as [|g gs IH]; intros i.
  - done.
  - simpl. rewrite !length_app, length_map. f_equal. apply IH.
Qed.

Lemma length_assembled tok activating incorrect :
  length (assembled tok activating incorrect)
  = (length incorrect + length (concat activating))%nat.
Proof.
  unfold assembled. by rewrite length_app, length_map, length_labelled_from.
Qed.

Lemma activating_loop tok i groups acc w :
  for_ (enumerate_from i groups)
    (λ samples '(i, examples),
       more <~ Sample._prepare_samples examples (Z.of_nat i + 1) true tok;
       ret (samples ++ more))
    acc w
  = (Ok (acc ++ seq (length (heap w)) (length (concat groups))),
     mkWorld (heap w ++ labelled_from tok i groups) (trace w)).
Proof.
  revert i acc w; induction groups as [|g gs IH]; intros i acc w; simpl.
  - unfold ret, labelled_from; simpl. by rewrite !app_nil_r, world_eta.
  - unfold bind at 1. unfold bind at 1. rewrite _prepare_samples_run.
    unfold ret at 1. rewrite IH; simpl.
    unfold labelled_from; simpl.
    rewrite !length_app, length_map, seq_app, <- !app_assoc.
    done.
Qed.

Lemma _prepare_flat_run self activating incorrect w :
  RecallScorer._prepare_flat self activating incorrect w
  = (Ok (seq (length (heap w))
             (length incorrect + length (concat activating))),
     mkWorld (heap w ++ assembled (tokenizer self) activating incorrect)
             (trace w)).
Proof.
  unfold RecallScorer._prepare_flat. unfold bind at 1.
  rewrite _prepare_samples_run.
  unfold enumerate. rewrite activating_loop; simpl.
  rewrite length_app, length_map, <- seq_app, <- app_assoc. done.
Qed.

End Runs.

(** ** Cutting a list into batches *)

Section Chunks.
Context {A : Type}.
Implicit Types (l : list A) (b k m : nat).

Definition chunk_count (n : nat) (bs : Z) : nat :=
  Z.to_nat ((Z.of_nat n + bs - 1) / bs).

Lemma chunk_count_bounds n bs :
  1 ≤ bs →
  Z.of_nat n ≤ Z.of_nat (chunk_count n bs) * bs
  ∧ (n ≠ 0%nat → (Z.of_nat (chunk_count n bs) - 1) * bs < Z.of_nat n).
Proof.
  intros Hbs. unfold chunk_count.
  assert (0 ≤ (Z.of_nat n + bs - 1) / bs) as Hq
    by (apply Z.div_pos; lia).
  rewrite Z2Nat.id by done.
  pose proof (Z.mul_div_le (Z.of_nat n + bs - 1) bs ltac:(lia)).
  pose proof (Z.mul_succ_div_gt (Z.of_nat n + bs - 1) bs ltac:(lia)).
  split; [nia|]. intros Hn. nia.
Qed.

Lemma py_range_from_0 n bs :
  1 ≤ bs →
  py_range 0 (Z.of_nat n) bs
  = Ok (map (λ k : nat, 0 + Z.of_nat k * bs) (seq 0 (chunk_count n bs))).
Proof.
  intros Hbs. unfold py_range, chunk_count.
  destruct (Z.eqb_spec bs 0) as [|_]; [lia|].
  destruct (Z.ltb_spec 0 bs) as [_|]; [|lia].
  by rewrite Z.sub_0_r.
Qed.

Lemma py_slice_chunk l bs k :
  1 ≤ bs → (k * Z.to_nat bs < length l)%nat →
  py_slice l (0 + Z.of_nat k * bs) (0 + Z.of_nat k * bs + bs)
  = take (Z.to_nat bs) (drop (k * Z.to_nat bs) l).
Proof.
  intros Hbs Hk. unfold py_slice, clamp_index.
  assert (Z.of_nat k * bs = Z.of_nat (k * Z.to_nat bs)) as ->.
  { rewrite Nat2Z.inj_mul, Z2Nat.id by lia. done. }
  generalize dependent (k * Z.to_nat bs)%nat. intros kb Hk.
  destruct (Z.ltb_spec (0 + Z.of_nat kb) 0) as [|_]; [lia|].
  destruct (Z.ltb_spec (0 + Z.of_nat kb + bs) 0) as [|_]; [lia|].
  rewrite (Z.min_l (0 + Z.of_nat kb)) by lia.
  replace (Z.to_nat (0 + Z.of_nat kb)) with kb by lia.
  destruct (Z.le_ge_cases (0 + Z.of_nat kb + bs) (Z.of_nat (length l))).
  - rewrite Z.min_l by done. f_equal. lia.
  - rewrite Z.min_r by done.
    rewrite (take_ge _ (Z.to_nat bs)) by (rewrite length_drop; lia).
    apply take_ge. rewrite length_drop. lia.
Qed.

Lemma concat_chunks l b m :
  (0 < b)%nat → (length l ≤ m * b)%nat →
  concat (map (λ k, take b (drop (k * b) l)) (seq 0 m)) = l.
Proof.
  intros Hb. revert l; induction m as [|m IH]; intros l Hlen.
  - destruct l; [done|simpl in Hlen; lia].
  - rewrite <- cons_seq, <- fmap_S_seq. simpl.
    rewrite <- list_fmap_compose. rewrite drop_0.
    transitivity (take b l ++ drop b l); [|apply take_drop]. f_equal.
    rewrite <- (IH (drop b l)) by (rewrite length_drop; lia).
    f_equal. apply list_fmap_ext; intros _ k _; simpl.
    by rewrite drop_drop.
Qed.

(** The list comprehension of [_prepare] (lines 107-110) on a list [l]. *)
Lemma chunks_spec l bs :
  1 ≤ bs →
  ∃ starts,
    py_range 0 (Z.of_nat (length l)) bs = Ok starts
    ∧ let batches := map (λ i, py_slice l i (i + bs)) starts in
      concat batches = l
      ∧ length batches = chunk_count (length l) bs
      ∧ ∀ k batch, batches !! k = Some batch →
          batch = take (Z.to_nat bs) (drop (k * Z.to_nat bs) l)
          ∧ (1 ≤ length batch ≤ Z.to_nat bs)%nat
          ∧ ((S k < length batches)%nat → length batch = Z.to_nat bs).
Proof.
  intros Hbs. eexists; split; [by apply py_range_from_0|].
  set (m := chunk_count (length l) bs).
  destruct (chunk_count_bounds (length l) bs Hbs) as [Hup Hlow]. fold m in Hup, Hlow.
  assert (∀ k, (k < m)%nat → (k * Z.to_nat bs < length l)%nat) as Hin.
  { intros k Hk. destruct (decide (length l = 0%nat)) as [Hz|Hnz].
    - exfalso. unfold m, chunk_count in Hk. rewrite Hz in Hk.
      rewrite Z.div_small in Hk by lia. simpl in Hk; lia.
    - specialize (Hlow Hnz). nia. }
  assert (map (λ i, py_slice l i (i + bs))
            (map (λ k : nat, 0 + Z.of_nat k * bs) (seq 0 m))
          = map (λ k, take (Z.to_nat bs) (drop (k * Z.to_nat bs) l)) (seq 0 m))
    as Heq.
  { rewrite map_map. apply map_ext_in. intros k Hk%in_seq.
    apply py_slice_chunk; [done|]. apply Hin; lia. }
  simpl. rewrite Heq. split; [|split].
  - apply concat_chunks; [lia|nia].
  - by rewrite length_map, length_seq.
  - intros k batch Hk. rewrite length_map, length_seq.
    rewrite list_lookup_fmap in Hk.
    destruct (seq 0 m !! k) as [k'|] eqn:Hs; [|done].
    apply lookup_seq in Hs as [-> Hkm]. simpl in Hk. injection Hk as <-.
    split; [done|]. rewrite length_take, length_drop.
    pose proof (Hin k Hkm). split; [lia|]. intros HS.
    pose proof (Hin (S k) HS). lia.
Qed.

End Chunks.

(** ** One query *)

Section Query.
Context `{Imports} `{Unicode}.

(** The lines [build_prompt] renders for a batch, from index [i] on. *)
Definition prompt_lines (h : list Sample) (i : nat) (batch : list addr)
    : list string :=
  map (λ '(i, a), "Example " +:+ pretty i +:+ ": " +:+ text (h !!! a))
      (enumerate_from i batch).

Definition the_request (self : RecallScorer) (h : list Sample)
    (batch : list addr) (explanation : string) : Request :=
  let batched := (1 <? length batch)%nat in
  {| prompt := clean_prompt explanation
                 (join RecallScorer.newline (prompt_lines h 0 batch)) batched;
     schema := if batched then Some (create_response_model (length batch))
               else None;
     req_max_tokens := max_tokens self;
     req_temperature := temperature self |}.

Lemma build_prompt_loop i batch acc w :
  for_ (enumerate_from i batch)
    (λ lines '(i, sample),
       t <~ get_text sample;
       ret (lines ++ ["Example " +:+ pretty i +:+ ": " +:+ t]))
    acc w
  = (Ok (acc ++ prompt_lines (heap w) i batch), w).
Proof.
  revert i acc; induction batch as [|a batch IH]; intros i acc; simpl.
  - unfold ret, prompt_lines; simpl. by rewrite app_nil_r.
  - unfold bind at 1. unfold bind at 1. unfold get_text at 1, ret at 1.
    rewrite IH. unfold prompt_lines; simpl. by rewrite <- app_assoc.
Qed.

Lemma build_prompt_run self batch explanation batched w :
  RecallScorer.build_prompt self batch explanation batched w
  = (Ok (clean_prompt explanation
           (join RecallScorer.newline (prompt_lines (heap w) 0 batch)) batched),
     w).
Proof.
  unfold RecallScorer.build_prompt. unfold bind at 1.
  unfold enumerate. by rewrite build_prompt_loop.
Qed.

Lemma query_send_run self batch explanation w :
  RecallScorer.query_send self batch explanation w
  = (Ok {| RecallScorer.pend_batch := batch;
           RecallScorer.pend_batched := (1 <? length batch)%nat;
           RecallScorer.pend_ticket := length (calls_of (trace w));
           RecallScorer.pend_request :=
             the_request self (heap w) batch explanation |},
     mkWorld (heap w)
             (trace w ++ [EGenerate (the_request self (heap w) batch explanation)])).
Proof.
  unfold RecallScorer.query_send. unfold bind at 1.
  rewrite build_prompt_run. unfold bind, send, ret, the_request; simpl.
  by destruct (1 <? length batch)%nat.
Qed.

(** *** The answer, read back *)

(** What the loop of lines 172-173 does from position [i] on: how it ends,
    and the writes it has made by then. *)
Fixpoint verdicts (selections : Response) (i : nat) (batch : list addr)
    : result unit * list (addr * bool) :=
  match batch with
  | [] => (Ok tt, [])
  | a :: rest =>
      match RecallScorer.getitem selections (RecallScorer.example_key i) with
      | Ok v =>
          let '(r, ws) := verdicts selections (S i) rest in
          (r, (a, py_eq_1 v) :: ws)
      | Raise e => (Raise e, [])
      end
  end.

(** How a resumed [query] ends and what it has written, as a function of
    the client's answer alone. *)
Definition outcome (answer : result Response) (batched : bool)
    (batch : list addr) : result (list addr) * list (addr * bool) :=
  match answer with
  | Raise e => (Raise e, [])
  | Ok selections =>
      if batched then
        match verdicts selections 0 batch with
        | (Ok _, ws) => (Ok batch, ws)
        | (Raise e, ws) => (Raise e, ws)
        end
      else
        match RecallScorer.getitem_last selections with
        | Raise e => (Raise e, [])
        | Ok c =>
            match py_int_char c with
            | Raise e => (Raise e, [])
            | Ok n =>
                match RecallScorer.first batch with
                | Raise e => (Raise e, [])
                | Ok a => (Ok batch, [(a, n =? 1)])
                end
            end
        end
  end.

Definition resume_outcome (self : RecallScorer) (p : RecallScorer.Pending)
    : result (list addr) * list (addr * bool) :=
  outcome (generate (client self) (RecallScorer.pend_ticket p)
             (RecallScorer.pend_request p))
          (RecallScorer.pend_batched p) (RecallScorer.pend_batch p).

Lemma verdicts_loop selections i batch w :
  for_ (enumerate_from i batch)
    (λ _ '(i, sample),
       v <~ lift (RecallScorer.getitem selections (RecallScorer.example_key i));
       set_predicted sample (py_eq_1 v))
    tt w
  = ((verdicts selections i batch).1,
     after_writes (verdicts selections i batch).2 w).
Proof.
  revert i w; induction batch as [|a batch IH]; intros i w; simpl.
  - by rewrite after_writes_nil.
  - unfold bind at 1. unfold bind at 1. unfold lift at 1.
    destruct (RecallScorer.getitem selections (RecallScorer.example_key i))
      as [v|e]; simpl.
    + unfold set_predicted at 1. rewrite IH.
      destruct (verdicts selections (S i) batch) as [r ws]; simpl.
      by rewrite after_writes_cons.
    + by rewrite after_writes_nil.
Qed.

Lemma query_resume_run self p w :
  RecallScorer.query_resume self p w
  = ((resume_outcome self p).1, after_writes (resume_outcome self p).2 w).
Proof.
  unfold RecallScorer.query_resume, resume_outcome, outcome.
  unfold bind at 1. unfold lift at 1.
  destruct (generate _ _ _) as [selections|e]; simpl;
    [|by rewrite after_writes_nil].
  destruct (RecallScorer.pend_batched p).
  - unfold bind at 1. unfold enumerate. rewrite verdicts_loop.
    destruct (verdicts selections 0 (RecallScorer.pend_batch p)) as [[[]|e] ws];
      done.
  - unfold bind, lift.
    destruct (RecallScorer.getitem_last selections) as [c|e]; simpl;
      [|by rewrite after_writes_nil].
    destruct (py_int_char c) as [n|e]; simpl; [|by rewrite after_writes_nil].
    destruct (RecallScorer.first _) as [a|e]; simpl;
      [|by rewrite after_writes_nil].
    unfold set_predicted, ret, after_writes; simpl. done.
Qed.

Lemma query_run self batch explanation w :
  RecallScorer.query self batch explanation w
  = let req := the_request self (heap w) batch explanation in
    let o := outcome (generate (client self) (length (calls_of (trace w))) req)
               (1 <? length batch)%nat batch in
    (o.1, after_writes o.2 (mkWorld (heap w) (trace w ++ [EGenerate req]))).
Proof.
  unfold RecallScorer.query. unfold bind at 1. rewrite query_send_run.
  by rewrite query_resume_run.
Qed.

End Query.

(** ** Facts about the outcome of a query *)

Section Outcome.
Context `{Imports} `{Unicode}.

(** The verdict a mapping holds for position [j]. *)
Definition verdict_at (m : gmap string jvalue) (j : nat) : bool :=
  from_option py_eq_1 false (m !! RecallScorer.example_key j).

Lemma verdicts_present m i batch :
  (∀ j, (j < length batch)%nat → is_Some (m !! RecallScorer.example_key (i + j))) →
  verdicts (RStruct m) i batch
  = (Ok tt, map (λ '(j, a), (a, verdict_at m j)) (enumerate_from i batch)).
Proof.
  revert i; induction batch as [|a batch IH]; intros i Hall; simpl; [done|].
  destruct (Hall 0%nat ltac:(simpl; lia)) as [v Hv].
  rewrite Nat.add_0_r in Hv.
  unfold verdict_at at 1. rewrite Hv; simpl.
  rewrite IH; [done|]. intros j Hj.
  replace (S i + j)%nat with (i + S j)%nat by lia. apply Hall; simpl; lia.
Qed.

Lemma verdicts_missing m i pre a post :
  (∀ j, (j < length pre)%nat → is_Some (m !! RecallScorer.example_key (i + j))) →
  m !! RecallScorer.example_key (i + length pre) = None →
  verdicts (RStruct m) i (pre ++ a :: post)
  = (Raise (KeyError (RecallScorer.example_key (i + length pre))),
     map (λ '(j, a), (a, verdict_at m j)) (enumerate_from i pre)).
Proof.
  revert i; induction pre as [|b pre IH]; intros i Hall Hnone; simpl.
  - rewrite Nat.add_0_r in Hnone.
    by rewrite Hnone, Nat.add_0_r.
  - destruct (Hall 0%nat ltac:(simpl; lia)) as [v Hv].
    rewrite Nat.add_0_r in Hv.
    unfold verdict_at at 1. rewrite Hv; simpl.
    rewrite IH.
    + by replace (S i + length pre)%nat with (i + S (length pre))%nat by lia.
    + intros j Hj. replace (S i + j)%nat with (i + S j)%nat by lia.
      apply Hall; simpl; lia.
    + by replace (S i + length pre)%nat with (i + S (length pre))%nat by lia.
Qed.

Lemma verdicts_prefix selections i batch :
  (verdicts selections i batch).2.*1 `prefix_of` batch.
Proof.
  revert i; induction batch as [|a batch IH]; intros i; simpl; [done|].
  destruct (RecallScorer.getitem _ _); simpl; [|apply prefix_nil].
  specialize (IH (S i)).
  destruct (verdicts selections (S i) batch) as [r ws]; simpl in *.
  by apply prefix_cons.
Qed.

Lemma outcome_prefix answer batched batch :
  (outcome answer batched batch).2.*1 `prefix_of` batch.
Proof.
  unfold outcome. destruct answer as [selections|e]; [|apply prefix_nil].
  destruct batched.
  - pose proof (verdicts_prefix selections 0 batch) as Hp.
    by destruct (verdicts selections 0 batch) as [[[]|e] ws].
  - destruct (RecallScorer.getitem_last _) as [c|e]; [|apply prefix_nil].
    destruct (py_int_char _) as [n|e]; [|apply prefix_nil].
    destruct batch as [|a batch]; simpl; [done|].
    apply prefix_cons, prefix_nil.
Qed.

Lemma outcome_ok answer batched batch b :
  (outcome answer batched batch).1 = Ok b → b = batch.
Proof.
  unfold outcome. destruct answer as [selections|e]; [|done].
  destruct batched.
  - destruct (verdicts selections 0 batch) as [[[]|e] ws]; simpl; congruence.
  - destruct (RecallScorer.getitem_last _); [|done].
    destruct (py_int_char _); [|done].
    destruct (RecallScorer.first _); simpl; congruence.
Qed.

End Outcome.

(** ** The dispatcher on one batch *)

Section QueryClaims.
Context `{Imports} `{Unicode}.

(** ["1"], code 49, is a decimal digit of value 1. *)
Lemma decimal_one : decimal 49 = Some 1.
Proof. exact (decimal_ascii 1 eq_refl). Qed.

Lemma calls_of_app tr1 tr2 : calls_of (tr1 ++ tr2) = calls_of tr1 ++ calls_of tr2.
Proof. unfold calls_of. apply omap_app. Qed.

Lemma writes_of_app tr1 tr2 :
  writes_of (tr1 ++ tr2) = writes_of tr1 ++ writes_of tr2.
Proof. unfold writes_of. apply omap_app. Qed.

Lemma calls_of_write_events ws : calls_of (write_events ws) = [].
Proof. induction ws as [|[a v] ws IH]; [done|]. simpl. apply IH. Qed.

Lemma writes_of_write_events ws : writes_of (write_events ws) = ws.
Proof.
  induction ws as [|[a v] ws IH]; [done|].
  change (writes_of (write_events ((a, v) :: ws)))
    with ((a, v) :: writes_of (write_events ws)).
  by rewrite IH.
Qed.

End QueryClaims.

Section DispatcherTheorems.
Context `{Imports} `{Unicode}.

Lemma verdict_writes_fst (f : nat → bool) i (batch : list addr) :
  (map (λ '(j, a), (a, f j)) (enumerate_from i batch)).*1 = batch.
Proof.
  revert i; induction batch as [|a batch IH]; intros i; simpl; [done|].
  f_equal. apply IH.
Qed.

Lemma verdict_writes_elem (f : nat → bool) i0 (batch : list addr) i a :
  batch !! i = Some a →
  (a, f (i0 + i)%nat) ∈ map (λ '(j, a), (a, f j)) (enumerate_from i0 batch).
Proof.
  intros Hi. apply list_elem_of_fmap. exists ((i0 + i)%nat, a). split; [done|].
  apply list_elem_of_lookup. exists i.
  by rewrite enumerate_from_lookup, Hi.
Qed.

Lemma backend_answer self batch explanation w (answer : result Response) :
  (∀ p w1, RecallScorer.query_send self batch explanation w = (Ok p, w1) →
     generate (client self) (RecallScorer.pend_ticket p)
       (RecallScorer.pend_request p) = answer) →
  generate (client self) (length (calls_of (trace w)))
    (the_request self (heap w) batch explanation) = answer.
Proof. intros Hans. by apply (Hans _ _ (query_send_run _ _ _ _)). Qed.

(** C1.  On a batch of more than one sample whose answer is a mapping with
    a field [example_i] for every position [i], [query] asks the backend
    with a schema, returns the batch, and writes into the sample at
    position [i] whether the indicator at [example_i] equals 1, in batch
    order; with distinct samples in the batch, that is the value each
    sample's [predicted] holds afterwards. *)
Theorem query_batched self batch explanation w m :
  (1 < length batch)%nat →
  (∀ a, a ∈ batch → (a < length (heap w))%nat) →
  (∀ p w1, RecallScorer.query_send self batch explanation w = (Ok p, w1) →
     generate (client self) (RecallScorer.pend_ticket p)
       (RecallScorer.pend_request p) = Ok (RStruct m)) →
  (∀ i, (i < length batch)%nat → is_Some (m !! RecallScorer.example_key i)) →
  let run := RecallScorer.query self batch explanation w in
  run.1 = Ok batch
  ∧ (∃ req, calls_of (trace run.2) = calls_of (trace w) ++ [req]
            ∧ schema req = Some (create_response_model (length batch)))
  ∧ writes_of (trace run.2)
    = writes_of (trace w)
      ++ map (λ '(i, a), (a, verdict_at m i)) (enumerate batch)
  ∧ (NoDup batch →
     ∀ i a v, batch !! i = Some a → m !! RecallScorer.example_key i = Some v →
       predicted (heap run.2 !!! a) = Some (py_eq_1 v)).
Proof.
  intros Hlen Hvalid Hans Hkeys run. unfold run.
  apply backend_answer in Hans. rewrite query_run; simpl.
  rewrite Hans. unfold outcome.
  assert ((1 <? length batch)%nat = true) as Hb by (apply Nat.ltb_lt; lia).
  rewrite !Hb. rewrite verdicts_present by done. simpl.
  split; [done|]. split; [|split].
  - eexists. rewrite <- app_assoc, !calls_of_app, calls_of_write_events.
    simpl. split; [done|]. unfold the_request; simpl. by rewrite Hb.
  - rewrite <- app_assoc, !writes_of_app. simpl.
    by rewrite writes_of_write_events.
  - intros Hnd i a v Hi Hv.
    destruct (lookup_lt_is_Some_2 (heap w) a) as [s Hs].
    { apply Hvalid. by apply list_elem_of_lookup_2 in Hi. }
    rewrite (list_lookup_total_correct _ a (with_predicted (verdict_at m i) s)).
    + simpl. unfold verdict_at. by rewrite Hv.
    + unfold enumerate.
      rewrite (apply_writes_lookup_in _ _ a (verdict_at m i)).
      * by rewrite Hs.
      * by rewrite verdict_writes_fst.
      * apply (verdict_writes_elem (verdict_at m) 0 batch i a Hi).
Qed.

End DispatcherTheorems.

(** ** Tasks completing in any order *)

Section Gather.
Context `{Imports} `{Unicode}.

Lemma completion_order_Permutation choices pending :
  completion_order choices pending (length pending) ≡ₚ pending.
Proof.
  remember (length pending) as n eqn:Hn.
  revert choices pending Hn; induction n as [|n IH]; intros choices pending Hn.
  - destruct pending; [done|discriminate].
  - cbn [completion_order].
    assert (hd 0 choices `mod` length pending < length pending)%nat as Hk
      by (apply Nat.mod_upper_bound; lia).
    destruct (lookup_lt_is_Some_2 pending _ Hk) as [i Hi].
    rewrite Hi.
    transitivity (i :: delete (hd 0 choices `mod` length pending)%nat pending);
      [|symmetry; by apply delete_Permutation].
    constructor. apply IH.
    rewrite length_delete by eauto. lia.
Qed.

(** Every completion order is the reading of some list of choices. *)
Lemma completion_order_complete order pending :
  order ≡ₚ pending →
  ∃ choices, completion_order choices pending (length pending) = order.
Proof.
  revert pending; induction order as [|i order IH]; intros pending Hp.
  - apply Permutation_nil in Hp. subst pending. exists (@nil nat). reflexivity.
  - assert (i ∈ pending) as Hi by (rewrite <- Hp; left).
    apply list_elem_of_lookup in Hi as [k Hk].
    destruct (IH (delete k pending)) as [choices Hc].
    { apply (Permutation_cons_inv (a := i)).
      rewrite Hp. by apply delete_Permutation. }
    exists (k :: choices).
    pose proof (lookup_lt_Some _ _ _ Hk) as Hlt.
    destruct (length pending) as [|n] eqn:Hn; [lia|].
    cbn [completion_order hd tl]. rewrite Hn.
    rewrite Nat.mod_small by lia. rewrite Hk. f_equal.
    rewrite length_delete in Hc by eauto. rewrite Hn in Hc. simpl in Hc.
    by rewrite Nat.sub_0_r in Hc.
Qed.

Lemma order_Permutation n choices :
  completion_order choices (seq 0 n) n ≡ₚ seq 0 n.
Proof.
  pose proof (completion_order_Permutation choices (seq 0 n)) as Hp.
  by rewrite length_seq in Hp.
Qed.

Context {A : Type}.
Implicit Types (outs : list (result A * list (addr * bool))).
Implicit Types (order : list nat) (slots : list (option A)).

(** How resuming the tasks in a given order ends, when each task's result
    and writes are [outs]. *)
Fixpoint run_order outs order slots
    : result (list (option A)) * list (addr * bool) :=
  match order with
  | [] => (Ok slots, [])
  | i :: rest =>
      match outs !! i with
      | Some (Ok r, ws) =>
          let '(res, ws') := run_order outs rest (<[i := Some r]> slots) in
          (res, ws ++ ws')
      | Some (Raise e, ws) => (Raise e, ws)
      | None => run_order outs rest slots
      end
  end.

Definition val_of outs (i : nat) : option A :=
  match outs !! i with
  | Some (Ok r, _) => Some r
  | _ => None
  end.

Definition ws_of outs (i : nat) : list (addr * bool) :=
  match outs !! i with
  | Some (_, ws) => ws
  | None => []
  end.

Lemma gather_loop (tasks : list (M A)) outs order slots w :
  length tasks = length outs →
  (∀ i task o, tasks !! i = Some task → outs !! i = Some o →
     ∀ w, task w = (o.1, after_writes o.2 w)) →
  for_ order
    (λ slots i,
       match tasks !! i with
       | Some task => r <~ task; ret (<[i := Some r]> slots)
       | None => ret slots
       end)
    slots w
  = ((run_order outs order slots).1,
     after_writes (run_order outs order slots).2 w).
Proof.
  intros Hlen Htasks.
  revert slots w; induction order as [|i order IH]; intros slots w; simpl.
  - by rewrite after_writes_nil.
  - unfold bind at 1.
    destruct (tasks !! i) as [task|] eqn:Ht.
    + destruct (lookup_lt_is_Some_2 outs i) as [o Ho].
      { rewrite <- Hlen. by apply lookup_lt_Some in Ht. }
      rewrite Ho. unfold bind at 1. rewrite (Htasks i task o Ht Ho).
      destruct o as [[r|e] ws]; simpl; [|done].
      unfold ret at 1. rewrite IH.
      destruct (run_order outs order (<[i:=Some r]> slots)) as [res ws']; simpl.
      by rewrite after_writes_app.
    + assert (outs !! i = None) as ->.
      { apply lookup_ge_None. rewrite <- Hlen. by apply lookup_ge_None. }
      unfold ret at 1. apply IH.
Qed.

Lemma run_order_all_ok outs order slots :
  (∀ i, i ∈ order → is_Some (val_of outs i)) →
  run_order outs order slots
  = (Ok (foldl (λ s i, <[i := val_of outs i]> s) slots order),
     concat (map (ws_of outs) order)).
Proof.
  revert slots; induction order as [|i order IH]; intros slots Hok; [done|].
  simpl. destruct (Hok i ltac:(left)) as [r Hr].
  unfold val_of, ws_of in *.
  destruct (outs !! i) as [[[r'|e] ws]|]; try discriminate.
  rewrite IH; [done|]. intros j Hj. apply Hok. by right.
Qed.

Lemma run_order_ok_inv outs order slots s :
  (run_order outs order slots).1 = Ok s →
  ∀ i, i ∈ order → (i < length outs)%nat → is_Some (val_of outs i).
Proof.
  revert slots; induction order as [|i order IH]; intros slots Hok j Hj Hlt.
  - by apply elem_of_nil in Hj.
  - simpl in Hok. unfold val_of.
    destruct (outs !! i) as [[[r|e] ws]|] eqn:Ho.
    + destruct (run_order outs order (<[i:=Some r]> slots)) as [res ws'] eqn:Hr.
      simpl in Hok. apply elem_of_cons in Hj as [->|Hj].
      * rewrite Ho. eauto.
      * eapply (IH (<[i:=Some r]> slots)); [by rewrite Hr|done|done].
    + done.
    + apply elem_of_cons in Hj as [->|Hj].
      * apply lookup_ge_None in Ho. lia.
      * by eapply IH.
Qed.

(** A failed run raises the exception of one of its failing tasks. *)
Lemma run_order_raise outs order slots e :
  (run_order outs order slots).1 = Raise e →
  ∃ i ws, i ∈ order ∧ outs !! i = Some (Raise e, ws).
Proof.
  revert slots; induction order as [|i order IH]; intros slots Hr; [done|].
  simpl in Hr.
  destruct (outs !! i) as [[[r|e'] ws]|] eqn:Ho.
  - destruct (run_order outs order (<[i:=Some r]> slots)) as [res ws'] eqn:Hrun.
    simpl in Hr. destruct (IH (<[i:=Some r]> slots)) as (j & ws'' & Hj & Hoj).
    { by rewrite Hrun. }
    exists j, ws''. split; [by right|done].
  - simpl in Hr. injection Hr as ->. exists i, ws. split; [by left|done].
  - destruct (IH slots Hr) as (j & ws'' & Hj & Hoj).
    exists j, ws''. split; [by right|done].
Qed.

(** The writes of a run are those of the tasks resumed so far. *)
Lemma run_order_writes outs order slots :
  ∃ pre, pre `prefix_of` order
         ∧ (run_order outs order slots).2 = concat (map (ws_of outs) pre).
Proof.
  revert slots; induction order as [|i order IH]; intros slots.
  - by exists [].
  - simpl.
    destruct (outs !! i) as [[[r|e] ws]|] eqn:Ho.
    + destruct (IH (<[i:=Some r]> slots)) as (pre & Hpre & Hws).
      destruct (run_order outs order (<[i:=Some r]> slots)) as [res ws'].
      simpl in *. exists (i :: pre). split; [by apply prefix_cons|].
      simpl. unfold ws_of at 1. by rewrite Ho, Hws.
    + exists [i]. split; [apply prefix_cons, prefix_nil|].
      simpl. unfold ws_of. by rewrite Ho, app_nil_r.
    + destruct (IH slots) as (pre & Hpre & Hws).
      exists (i :: pre). split; [by apply prefix_cons|].
      simpl. unfold ws_of at 1. by rewrite Ho.
Qed.

Lemma foldl_insert_length (f : nat → option A) order slots :
  length (foldl (λ s i, <[i := f i]> s) slots order) = length slots.
Proof.
  revert slots; induction order as [|i order IH]; intros slots; simpl; [done|].
  by rewrite IH, length_insert.
Qed.

Lemma foldl_insert_notin (f : nat → option A) order slots j :
  j ∉ order →
  foldl (λ s i, <[i := f i]> s) slots order !! j = slots !! j.
Proof.
  revert slots; induction order as [|i order IH]; intros slots Hj; [done|].
  apply not_elem_of_cons in Hj as [Hne Hj]. simpl.
  rewrite IH by done. by apply list_lookup_insert_ne.
Qed.

Lemma foldl_insert_in (f : nat → option A) order slots j :
  j ∈ order → (j < length slots)%nat →
  foldl (λ s i, <[i := f i]> s) slots order !! j = Some (f j).
Proof.
  revert slots; induction order as [|i order IH]; intros slots Hj Hlt.
  - by apply elem_of_nil in Hj.
  - simpl. destruct (decide (j ∈ order)) as [Hin|Hnin].
    + apply IH; [done|]. by rewrite length_insert.
    + apply elem_of_cons in Hj as [->|]; [|done].
      rewrite foldl_insert_notin by done.
      by apply list_lookup_insert_eq.
Qed.

(** Once every task has been resumed, the slots hold the results in task
    order, whatever the order of completion. *)
Lemma slots_filled (f : nat → A) outs order n :
  order ≡ₚ seq 0 n →
  (∀ j, (j < n)%nat → val_of outs j = Some (f j)) →
  omap id (foldl (λ s i, <[i := val_of outs i]> s) (replicate n None) order)
  = map f (seq 0 n).
Proof.
  intros Hp Hval.
  assert (foldl (λ s i, <[i := val_of outs i]> s) (replicate n None) order
          = map (λ j, Some (f j)) (seq 0 n)) as ->.
  { apply list_eq; intros j.
    destruct (decide (j < n)%nat) as [Hlt|Hge].
    - rewrite foldl_insert_in.
      + rewrite list_lookup_fmap, lookup_seq_lt by done. simpl.
        by rewrite Hval.
      + rewrite Hp. apply elem_of_seq. lia.
      + by rewrite length_replicate.
    - rewrite !(proj2 (lookup_ge_None _ _)); [done| |].
      + rewrite length_map, length_seq. lia.
      + rewrite foldl_insert_length, length_replicate. lia. }
  clear. induction (seq 0 n) as [|j l IH]; [done|]. simpl. f_equal. exact IH.
Qed.

End Gather.

(** ** All the batches of a call *)

Section ProcessBatches.
Context `{Imports} `{Unicode}.

(** The coroutines of [process_batches], each suspended at its [await];
    the first one holds ticket [k0]. *)
Definition launched (self : RecallScorer) (h : list Sample)
    (explanation : string) (k0 : nat) (batches : list (list addr))
    : list RecallScorer.Pending :=
  map (λ '(k, batch),
         {| RecallScorer.pend_batch := batch;
            RecallScorer.pend_batched := (1 <? length batch)%nat;
            RecallScorer.pend_ticket := k;
            RecallScorer.pend_request := the_request self h batch explanation |})
      (enumerate_from k0 batches).

Definition requests (ps : list RecallScorer.Pending) : list event :=
  map (λ p, EGenerate (RecallScorer.pend_request p)) ps.

Lemma length_launched self h explanation k0 batches :
  length (launched self h explanation k0 batches) = length batches.
Proof. unfold launched. by rewrite length_map, length_enumerate_from. Qed.

Lemma requests_launched self h expl k0 batches :
  requests (launched self h expl k0 batches)
  = map (λ batch, EGenerate (the_request self h batch expl)) batches.
Proof.
  unfold requests, launched. revert k0.
  induction batches as [|batch batches IH]; intros k0; simpl; [done|].
  f_equal. apply IH.
Qed.

Lemma launched_lookup self h explanation k0 batches k :
  launched self h explanation k0 batches !! k
  = (λ batch,
       {| RecallScorer.pend_batch := batch;
          RecallScorer.pend_batched := (1 <? length batch)%nat;
          RecallScorer.pend_ticket := (k0 + k)%nat;
          RecallScorer.pend_request := the_request self h batch explanation |})
    <$> batches !! k.
Proof.
  unfold launched. rewrite list_lookup_fmap, enumerate_from_lookup.
  by destruct (batches !! k).
Qed.

Lemma launch_loop self explanation batches acc w :
  for_ batches
    (λ ps batch,
       p <~ RecallScorer.query_send self batch explanation;
       ret (ps ++ [p]))
    acc w
  = let ps := launched self (heap w) explanation
                (length (calls_of (trace w))) batches in
    (Ok (acc ++ ps), mkWorld (heap w) (trace w ++ requests ps)).
Proof.
  revert acc w; induction batches as [|batch batches IH]; intros acc w; simpl.
  - unfold ret. by rewrite !app_nil_r, world_eta.
  - unfold bind at 1. unfold bind at 1. rewrite query_send_run.
    unfold ret at 1. rewrite IH; simpl.
    rewrite calls_of_app, length_app; simpl. rewrite Nat.add_1_r.
    unfold launched; simpl. by rewrite <- !app_assoc.
Qed.

Lemma default_loop results acc w :
  for_ results
    (λ out sublist,
       for_ sublist
         (λ out item, r <~ Sample.default item; ret (out ++ [r]))
         out)
    acc w
  = (Ok (acc ++ map snapshot (deref (heap w) (concat results))), w).
Proof.
  revert acc; induction results as [|sub results IH]; intros acc; simpl.
  - unfold ret. by rewrite app_nil_r.
  - unfold bind at 1.
    assert (∀ acc, for_ sub
              (λ out item, r <~ Sample.default item; ret (out ++ [r])) acc w
            = (Ok (acc ++ map snapshot (deref (heap w) sub)), w)) as ->.
    { clear. induction sub as [|a sub IH]; intros acc; simpl.
      - unfold ret. by rewrite app_nil_r.
      - unfold bind at 1. unfold bind at 1. unfold Sample.default at 1.
        unfold ret at 1. rewrite IH. by rewrite <- app_assoc. }
    rewrite IH. unfold deref. by rewrite !map_app, app_assoc.
Qed.

(** [process_batches], step by step: launch, resume in completion order,
    read the records back. *)
Lemma process_batches_run self choices batches explanation w :
  RecallScorer.process_batches self choices batches explanation w
  = let n := length batches in
    let ps := launched self (heap w) explanation
                (length (calls_of (trace w))) batches in
    let ro := run_order (map (resume_outcome self) ps)
                (completion_order choices (seq 0 n) n) (replicate n None) in
    let w' := after_writes ro.2 (mkWorld (heap w) (trace w ++ requests ps)) in
    match ro.1 with
    | Ok slots =>
        (Ok (map snapshot (deref (heap w') (concat (omap id slots)))), w')
    | Raise e => (Raise e, w')
    end.
Proof.
  unfold RecallScorer.process_batches. unfold bind at 1.
  rewrite launch_loop. cbv zeta. rewrite app_nil_l.
  unfold bind at 1. unfold gather. unfold bind at 1.
  rewrite length_map, length_launched.
  rewrite (gather_loop _ (map (resume_outcome self)
             (launched self (heap w) explanation
                (length (calls_of (trace w))) batches))).
  - destruct (run_order _ _ _) as [[slots|e] ws]; simpl; [|done].
    unfold ret at 1. by rewrite default_loop.
  - by rewrite !length_map.
  - intros i task o Ht Ho w0.
    rewrite list_lookup_fmap in Ht. rewrite list_lookup_fmap in Ho.
    destruct (launched _ _ _ _ _ !! i) as [p|]; [|done].
    simpl in *. injection Ht as <-. injection Ho as <-.
    apply query_resume_run.
Qed.

End ProcessBatches.

Section ProcessBatchesFacts.
Context `{Imports} `{Unicode}.
Implicit Types (batches : list (list addr)).

Lemma concat_submseteq {A} (l k : list (list A)) :
  l ⊆+ k → concat l ⊆+ concat k.
Proof.
  induction 1 as [|x l k _ IH|x y l|x l k _ IH|l k m _ IH1 _ IH2]; simpl.
  - done.
  - by apply submseteq_skips_l.
  - rewrite !app_assoc. apply submseteq_skips_r.
    apply Permutation_submseteq, Permutation_app_comm.
  - apply submseteq_app_r. exists [], (concat l).
    split; [done|]. split; [apply submseteq_nil_l|done].
  - by etrans.
Qed.

Lemma prefix_submseteq {A} (l k : list A) : l `prefix_of` k → l ⊆+ k.
Proof.
  intros [k' ->]. rewrite <- (app_nil_r l) at 1.
  apply submseteq_skips_l, submseteq_nil_l.
Qed.

Lemma submseteq_NoDup {A} (l k : list A) : l ⊆+ k → NoDup k → NoDup l.
Proof.
  intros (l2 & Hp & Hs)%submseteq_sublist_r Hnd.
  rewrite Hp. by eapply sublist_NoDup.
Qed.

Lemma lookup_total_seq {A} `{Inhabited A} (l : list A) :
  map (λ j, l !!! j) (seq 0 (length l)) = l.
Proof.
  apply list_eq; intros j. rewrite list_lookup_fmap.
  destruct (decide (j < length l)%nat) as [Hlt|Hge].
  - rewrite lookup_seq_lt by done. simpl.
    by rewrite (list_lookup_lookup_total_lt l j).
  - rewrite lookup_seq_ge by lia. symmetry. apply lookup_ge_None. lia.
Qed.

Section Fixed.
Variables (self : RecallScorer) (explanation : string) (w : world).
Variable (batches : list (list addr)).

Let ps := launched self (heap w) explanation (length (calls_of (trace w))) batches.
Let outs := map (resume_outcome self) ps.
Let n := length batches.

Lemma outs_lookup j batch :
  batches !! j = Some batch →
  ∃ p, ps !! j = Some p ∧ outs !! j = Some (resume_outcome self p)
       ∧ RecallScorer.pend_batch p = batch
       ∧ RecallScorer.pend_batched p = (1 <? length batch)%nat
       ∧ RecallScorer.pend_ticket p = (length (calls_of (trace w)) + j)%nat
       ∧ RecallScorer.pend_request p
         = the_request self (heap w) batch explanation.
Proof.
  intros Hb. eexists. unfold outs, ps.
  rewrite list_lookup_fmap, launched_lookup, Hb. simpl. done.
Qed.

Lemma val_of_batch j b : val_of outs j = Some b → batches !! j = Some b.
Proof.
  unfold val_of. destruct (outs !! j) as [[[r|e] ws]|] eqn:Ho; try done.
  intros [= ->].
  assert (j < length batches)%nat as Hlt.
  { apply lookup_lt_Some in Ho. unfold outs, ps in Ho.
    by rewrite length_map, length_launched in Ho. }
  destruct (lookup_lt_is_Some_2 batches j Hlt) as [batch Hb].
  destruct (outs_lookup j batch Hb) as (p & _ & Ho' & Hpb & _).
  rewrite Ho in Ho'. injection Ho' as Ho'.
  unfold resume_outcome in Ho'. rewrite Hpb in Ho'.
  rewrite Hb. f_equal. symmetry. eapply outcome_ok. by rewrite <- Ho'.
Qed.

Lemma ws_of_prefix j batch :
  batches !! j = Some batch → (ws_of outs j).*1 `prefix_of` batch.
Proof.
  intros Hb. destruct (outs_lookup j batch Hb) as (p & _ & Ho & Hpb & _).
  unfold ws_of. rewrite Ho. unfold resume_outcome. rewrite Hpb.
  apply outcome_prefix.
Qed.

Lemma ws_of_beyond j : batches !! j = None → ws_of outs j = [].
Proof.
  intros Hb. unfold ws_of.
  assert (outs !! j = None) as ->; [|done].
  apply lookup_ge_None. unfold outs, ps.
  rewrite length_map, length_launched. by apply lookup_ge_None.
Qed.

(** The objects written by any part of the tasks are objects of the
    batches, each counted at most as often as it occurs there. *)
Lemma written_submseteq (pre : list nat) :
  pre ⊆+ seq 0 n →
  (concat (map (ws_of outs) pre)).*1 ⊆+ concat batches.
Proof.
  intros Hpre.
  transitivity (concat (map (λ j, batches !!! j) pre)).
  - clear Hpre. induction pre as [|j pre IH]; [done|]. simpl.
    rewrite fmap_app. apply submseteq_app; [|done].
    destruct (batches !! j) as [batch|] eqn:Hb.
    + rewrite (list_lookup_total_correct _ _ _ Hb).
      apply prefix_submseteq. by apply ws_of_prefix.
    + rewrite ws_of_beyond by done. apply submseteq_nil_l.
  - replace (concat batches)
      with (concat (map (λ j, batches !!! j) (seq 0 n)))
      by (unfold n; by rewrite lookup_total_seq).
    apply concat_submseteq. by apply fmap_submseteq.
Qed.

End Fixed.
End ProcessBatchesFacts.

(** ** Flattening and slicing back *)

(** A flat list cut back into consecutive pieces of the given sizes. *)
Fixpoint slice_by {A} (sizes : list nat) (l : list A) : list (list A) :=
  match sizes with
  | [] => []
  | n :: rest => take n l :: slice_by rest (drop n l)
  end.

Lemma slice_by_concat {A} (ls : list (list A)) :
  slice_by (map length ls) (concat ls) = ls.
Proof.
  induction ls as [|l ls IH]; [done|]. simpl.
  rewrite take_app_length, drop_app_length. by rewrite IH.
Qed.

Lemma elem_of_concat {A} (ls : list (list A)) l a :
  l ∈ ls → a ∈ l → a ∈ concat ls.
Proof.
  intros Hl Ha. induction ls as [|l' ls IH]; [by apply elem_of_nil in Hl|].
  simpl. apply elem_of_app. apply elem_of_cons in Hl as [<-|Hl]; auto.
Qed.

Lemma elem_of_concat_inv {A} (ls : list (list A)) a :
  a ∈ concat ls → ∃ l, l ∈ ls ∧ a ∈ l.
Proof.
  induction ls as [|l ls IH]; simpl; intros Ha; [by apply elem_of_nil in Ha|].
  apply elem_of_app in Ha as [Ha|Ha].
  - exists l. split; [by left|done].
  - destruct (IH Ha) as (l' & Hl' & Ha'). exists l'. split; [by right|done].
Qed.

Lemma NoDup_concat_unique {A} (ls : list (list A)) i j l1 l2 a :
  NoDup (concat ls) → ls !! i = Some l1 → ls !! j = Some l2 →
  a ∈ l1 → a ∈ l2 → i = j.
Proof.
  revert i j; induction ls as [|l ls IH]; intros i j Hnd Hi Hj H1 H2; [done|].
  simpl in Hnd. apply NoDup_app in Hnd as (_ & Hdisj & Hnd).
  assert (∀ k lk, ls !! k = Some lk → a ∈ lk → a ∈ concat ls) as Hin.
  { intros k lk Hk Ha. apply (elem_of_concat ls lk); [|done].
    by eapply list_elem_of_lookup_2. }
  destruct i as [|i], j as [|j]; simpl in *.
  - done.
  - injection Hi as ->. exfalso. eapply Hdisj; eauto.
  - injection Hj as ->. exfalso. eapply Hdisj; eauto.
  - f_equal. by eapply IH.
Qed.

Section Flatten.
Context `{Imports} `{Unicode}.

Lemma process_batches_ok_inv self choices batches explanation w out w' :
  RecallScorer.process_batches self choices batches explanation w = (Ok out, w') →
  let n := length batches in
  let ps := launched self (heap w) explanation
              (length (calls_of (trace w))) batches in
  let outs := map (resume_outcome self) ps in
  (∀ j batch, batches !! j = Some batch → val_of outs j = Some batch)
  ∧ w' = after_writes
           (concat (map (ws_of outs) (completion_order choices (seq 0 n) n)))
           (mkWorld (heap w) (trace w ++ requests ps))
  ∧ out = map snapshot (deref (heap w') (concat batches)).
Proof.
  rewrite process_batches_run. cbv zeta.
  set (n := length batches).
  set (ps := launched _ _ _ _ _). set (outs := map _ ps).
  set (order := completion_order choices (seq 0 n) n).
  destruct (run_order outs order (replicate n None)) as [[slots|e] ws] eqn:Hro;
    simpl; [|done].
  intros [= <- <-].
  assert (∀ j, (j < n)%nat → is_Some (val_of outs j)) as Hall.
  { intros j Hj. eapply (run_order_ok_inv outs order).
    - by rewrite Hro.
    - unfold order. rewrite order_Permutation. apply elem_of_seq. lia.
    - unfold outs, ps. by rewrite length_map, length_launched. }
  assert (∀ j batch, batches !! j = Some batch → val_of outs j = Some batch)
    as Hval.
  { intros j batch Hb.
    destruct (Hall j (lookup_lt_Some _ _ _ Hb)) as [b Hv].
    rewrite Hv. f_equal.
    apply val_of_batch in Hv. congruence. }
  rewrite run_order_all_ok in Hro.
  2:{ intros i Hi. apply Hall. unfold order in Hi.
      rewrite order_Permutation in Hi. apply elem_of_seq in Hi. lia. }
  injection Hro as <- <-.
  split; [done|]. split; [done|].
  rewrite (slots_filled (λ j, batches !!! j)).
  - unfold n. by rewrite lookup_total_seq.
  - apply order_Permutation.
  - intros j Hj. destruct (lookup_lt_is_Some_2 batches j Hj) as [batch Hb].
    rewrite (Hval j batch Hb). f_equal. symmetry.
    by apply list_lookup_total_correct.
Qed.

Lemma process_batches_all_ok self choices batches explanation w :
  let n := length batches in
  let ps := launched self (heap w) explanation
              (length (calls_of (trace w))) batches in
  let outs := map (resume_outcome self) ps in
  (∀ j batch, batches !! j = Some batch → val_of outs j = Some batch) →
  let w' := after_writes
              (concat (map (ws_of outs) (completion_order choices (seq 0 n) n)))
              (mkWorld (heap w) (trace w ++ requests ps)) in
  RecallScorer.process_batches self choices batches explanation w
  = (Ok (map snapshot (deref (heap w') (concat batches))), w').
Proof.
  intros n ps outs Hval w'. rewrite process_batches_run. cbv zeta.
  fold n ps outs.
  rewrite run_order_all_ok.
  2:{ intros i Hi. rewrite order_Permutation in Hi. apply elem_of_seq in Hi.
      destruct (lookup_lt_is_Some_2 batches i) as [batch Hb]; [lia|].
      rewrite (Hval i batch Hb). eauto. }
  simpl. fold w'. rewrite (slots_filled (λ j, batches !!! j)).
  - unfold n. by rewrite lookup_total_seq.
  - apply order_Permutation.
  - intros j Hj. destruct (lookup_lt_is_Some_2 batches j Hj) as [batch Hb].
    rewrite (Hval j batch Hb). f_equal. symmetry.
    by apply list_lookup_total_correct.
Qed.

End Flatten.

Section Independence.
Context `{Imports} `{Unicode}.

Lemma concat_Permutation {A} (l k : list (list A)) :
  l ≡ₚ k → concat l ≡ₚ concat k.
Proof.
  induction 1 as [|x l k _ IH|x y l|l k m _ IH1 _ IH2]; simpl.
  - done.
  - by rewrite IH.
  - rewrite !app_assoc. f_equiv. apply Permutation_app_comm.
  - by etrans.
Qed.

Variables (self : RecallScorer) (explanation : string) (w : world).
Variable (batches : list (list addr)).
Hypothesis batches_NoDup : NoDup (concat batches).

Let ps := launched self (heap w) explanation (length (calls_of (trace w))) batches.
Let outs := map (resume_outcome self) ps.
Let n := length batches.

Lemma written_NoDup (pre : list nat) :
  pre ⊆+ seq 0 n → NoDup (concat (map (ws_of outs) pre)).*1.
Proof.
  intros Hpre. eapply submseteq_NoDup; [|exact batches_NoDup].
  by apply written_submseteq.
Qed.

(** With no sample shared between batches, the heap a run leaves does not
    depend on the order of completion. *)
Lemma final_heap_order order1 order2 h :
  order1 ≡ₚ seq 0 n → order2 ≡ₚ seq 0 n →
  apply_writes (concat (map (ws_of outs) order1)) h
  = apply_writes (concat (map (ws_of outs) order2)) h.
Proof.
  intros H1 H2. apply apply_writes_Permutation.
  - apply written_NoDup. by apply Permutation_submseteq.
  - apply concat_Permutation. apply fmap_Permutation. by rewrite H1, H2.
Qed.

(** On the samples of a batch, the heap holds what resuming that batch's
    task alone would have left. *)
Lemma final_heap_on_batch order h k batch a :
  order ≡ₚ seq 0 n → batches !! k = Some batch → a ∈ batch →
  apply_writes (concat (map (ws_of outs) order)) h !! a
  = apply_writes (ws_of outs k) h !! a.
Proof.
  intros Hp Hk Ha.
  assert (k ∈ order) as Hko.
  { rewrite Hp. apply elem_of_seq. apply lookup_lt_Some in Hk. unfold n. lia. }
  assert (NoDup (concat (map (ws_of outs) order)).*1) as HndW.
  { apply written_NoDup. by apply Permutation_submseteq. }
  assert (NoDup (ws_of outs k).*1) as Hndk.
  { eapply submseteq_NoDup; [|exact batches_NoDup].
    transitivity batch.
    - apply prefix_submseteq. by apply ws_of_prefix.
    - apply sublist_submseteq. clear -Hk.
      revert k Hk; induction batches as [|b bs IH]; intros [|k] Hk;
        simpl in *; try done.
      + injection Hk as ->. by apply sublist_inserts_r.
      + apply sublist_inserts_l. by eapply IH. }
  destruct (decide (a ∈ (ws_of outs k).*1)) as [Hin|Hnin].
  - apply list_elem_of_fmap in Hin as [[a' v] [Heq Hin]].
    simpl in Heq; subst a'.
    rewrite (apply_writes_lookup_in _ h a v); [|done|].
    + by rewrite (apply_writes_lookup_in _ h a v).
    + apply (elem_of_concat _ (ws_of outs k)); [|done].
      apply list_elem_of_fmap. by exists k.
  - rewrite (apply_writes_lookup_notin (ws_of outs k)) by done.
    apply apply_writes_lookup_notin. intros HinW.
    apply list_elem_of_fmap in HinW as [[a' v] [Heq HinW]].
    simpl in Heq; subst a'.
    apply elem_of_concat_inv in HinW as (ws & Hws & Hav).
    apply list_elem_of_fmap in Hws as (j & -> & Hj).
    assert (a ∈ (ws_of outs j).*1) as Haj.
    { apply list_elem_of_fmap. by exists (a, v). }
    destruct (batches !! j) as [bj|] eqn:Hbj.
    + assert (a ∈ bj) as Habj.
      { pose proof (ws_of_prefix self explanation w batches j bj Hbj) as [t ->].
        apply elem_of_app. by left. }
      assert (j = k) as -> by (by eapply NoDup_concat_unique).
      done.
    + pose proof (ws_of_beyond self explanation w batches j Hbj) as Hnil.
      change (ws_of outs j = []) in Hnil. rewrite Hnil in Haj.
      by apply elem_of_nil in Haj.
Qed.

End Independence.

(** * The claims about the whole pipeline *)

Section PipelineTheorems.
Context `{Imports} `{Unicode}.

(** C7.  When [process_batches] returns, its output is the records of the
    batches' samples, batch after batch and in the order within each batch:
    cut back at the batch boundaries it gives, for every batch, the records
    of the samples the dispatcher returned for it.  When no sample sits in
    two batches, neither the output nor the heap depends on the order in
    which the requests complete, and the records of a batch are those a
    [query] of that batch alone leaves. *)
Theorem process_batches_flatten self choices batches explanation w out w' :
  RecallScorer.process_batches self choices batches explanation w = (Ok out, w') →
  let records := λ batch, map snapshot (deref (heap w') batch) in
  out = concat (map records batches)
  ∧ slice_by (map length batches) out = map records batches
  ∧ (NoDup (concat batches) →
     (∀ choices',
        ∃ w'', RecallScorer.process_batches self choices' batches explanation w
               = (Ok out, w'')
               ∧ heap w'' = heap w')
     ∧ (∀ k batch wk,
          batches !! k = Some batch →
          heap wk = heap w →
          length (calls_of (trace wk)) = (length (calls_of (trace w)) + k)%nat →
          let run := RecallScorer.query self batch explanation wk in
          run.1 = Ok batch
          ∧ records batch = map snapshot (deref (heap run.2) batch))).
Proof.
  intros Hrun records.
  destruct (process_batches_ok_inv _ _ _ _ _ _ _ Hrun) as (Hval & Hw' & Hout).
  assert (out = concat (map records batches)) as Hflat.
  { rewrite Hout. unfold records, deref. clear.
    induction batches as [|b bs IH]; [done|]. simpl.
    by rewrite !map_app, IH. }
  split; [done|]. split.
  { rewrite Hflat.
    replace (map length batches) with (map length (map records batches)).
    - apply slice_by_concat.
    - rewrite map_map. apply map_ext. intros b. unfold records, deref.
      by rewrite !length_map. }
  intros Hnd. split.
  - intros choices'.
    pose proof (process_batches_all_ok self choices' batches explanation w Hval)
      as Hrun'. cbv zeta in Hrun'.
    eexists. split.
    + rewrite Hrun'. f_equal. rewrite Hout. do 3 f_equal.
      rewrite Hw'. simpl.
      apply (final_heap_order self explanation w batches Hnd);
        apply order_Permutation.
    + rewrite Hw'. simpl.
      apply (final_heap_order self explanation w batches Hnd);
        apply order_Permutation.
  - intros k batch wk Hk Hheap Hcalls run. unfold run.
    rewrite query_run. cbv zeta. rewrite Hheap, Hcalls.
    destruct (outs_lookup self explanation w batches k batch Hk)
      as (p & _ & Ho & Hpb & Hpd & Hpt & Hpr).
    pose proof (Hval k batch Hk) as Hv. unfold val_of in Hv.
    rewrite Ho in Hv. unfold resume_outcome in Hv.
    rewrite Hpb, Hpd, Hpt, Hpr in Hv.
    destruct (outcome _ _ _) as [[b|e] ws] eqn:Hoc; [|done].
    injection Hv as ->. simpl. split; [done|].
    unfold records, deref. f_equal.
    apply map_ext_in. intros a Ha%list_elem_of_In.
    rewrite !list_lookup_total_alt. f_equal.
    rewrite Hw'. simpl.
    rewrite (final_heap_on_batch self explanation w batches Hnd _ _ k batch a);
      [|apply order_Permutation|done|done].
    unfold ws_of. rewrite Ho. unfold resume_outcome.
    by rewrite Hpb, Hpd, Hpt, Hpr, Hoc.
Qed.

End PipelineTheorems.

(** * The claims about the sample assembler *)

Section AssemblerTheorems.
Context `{Imports} `{Unicode}.

Lemma deref_fresh h l : deref (h ++ l) (seq (length h) (length l)) = l.
Proof.
  unfold deref. apply list_eq; intros j. rewrite list_lookup_fmap.
  destruct (decide (j < length l)%nat) as [Hlt|Hge].
  - rewrite lookup_seq_lt by done. simpl.
    destruct (lookup_lt_is_Some_2 l j Hlt) as [s Hs]. rewrite Hs. f_equal.
    apply list_lookup_total_correct.
    rewrite lookup_app_r by lia.
    by replace (length h + j - length h)%nat with j by lia.
  - rewrite lookup_seq_ge by lia. symmetry. apply lookup_ge_None. lia.
Qed.

Lemma texts_labelled_from tok i groups :
  map text (labelled_from tok i groups)
  = map (λ e, decode tok (tokens e)) (concat groups).
Proof.
  unfold labelled_from. revert i; induction groups as [|g gs IH]; intros i.
  - done.
  - simpl. rewrite !map_app, IH. f_equal. by rewrite map_map.
Qed.

Lemma _prepare_of_flat self activating incorrect w :
  1 ≤ batch_size self →
  ∃ samples batches w1,
    RecallScorer._prepare_flat self activating incorrect w = (Ok samples, w1)
    ∧ RecallScorer._prepare self activating incorrect w = (Ok batches, w1)
    ∧ samples = seq (length (heap w))
                    (length incorrect + length (concat activating))
    ∧ w1 = mkWorld (heap w ++ assembled (tokenizer self) activating incorrect)
                   (trace w)
    ∧ concat batches = samples
    ∧ length batches = chunk_count (length samples) (batch_size self)
    ∧ ∀ k batch, batches !! k = Some batch →
        batch = take (Z.to_nat (batch_size self))
                  (drop (k * Z.to_nat (batch_size self)) samples)
        ∧ (1 ≤ length batch ≤ Z.to_nat (batch_size self))%nat
        ∧ ((S k < length batches)%nat →
           length batch = Z.to_nat (batch_size self)).
Proof.
  intros Hbs.
  set (samples := seq (length (heap w))
                      (length incorrect + length (concat activating))).
  destruct (chunks_spec samples (batch_size self) Hbs)
    as (starts & Hr & Hcat & Hlen & Hchunks).
  exists samples, (map (λ i, py_slice samples i (i + batch_size self)) starts).
  eexists. split; [apply _prepare_flat_run|].
  split; [|done].
  unfold RecallScorer._prepare. unfold bind at 1.
  rewrite _prepare_flat_run. fold samples.
  unfold bind, lift. by rewrite Hr.
Qed.

(** C4.  The assembler builds one fresh sample per example, those of the
    random examples and of every activating group, none dropped and none
    twice: as many samples as examples, all distinct objects, with the
    decoded texts of the examples in their order.  With a batch size of at
    least 1, the batches hold exactly these samples. *)
Theorem assembly_complete self activating incorrect w :
  let flat := RecallScorer._prepare_flat self activating incorrect w in
  ∃ samples,
    flat.1 = Ok samples
    ∧ length samples
      = (length incorrect + list_sum (map length activating))%nat
    ∧ NoDup samples
    ∧ (∀ a, a ∈ samples → (length (heap w) ≤ a < length (heap flat.2))%nat)
    ∧ map text (deref (heap flat.2) samples)
      = map (λ e, decode (tokenizer self) (tokens e))
            (incorrect ++ concat activating)
    ∧ (1 ≤ batch_size self →
       ∃ batches,
         RecallScorer._prepare self activating incorrect w = (Ok batches, flat.2)
         ∧ concat batches = samples).
Proof.
  intros flat. unfold flat. rewrite _prepare_flat_run. simpl.
  eexists. split; [done|]. split; [|split; [|split; [|split]]].
  - by rewrite length_seq, length_concat.
  - apply NoDup_seq.
  - intros a Ha%elem_of_seq. rewrite length_app, length_assembled. lia.
  - rewrite <- length_assembled with (tok := tokenizer self).
    rewrite deref_fresh. unfold assembled.
    rewrite !map_app, texts_labelled_from. f_equal. by rewrite map_map.
  - intros Hbs.
    destruct (_prepare_of_flat self activating incorrect w Hbs)
      as (samples & batches & w1 & Hflat & Hprep & -> & -> & Hcat & _).
    exists batches. by rewrite Hprep.
Qed.

(** C5.  The samples of the random examples come first, each with
    quantile -1 and ground truth false; then those of the activating
    groups in group order, the samples of group [i] (counted from 0) with
    quantile [i + 1] and ground truth true.  With a batch size of at least
    1, that is the content of the batches read in order. *)
Theorem label_correctness self activating incorrect w :
  let flat := RecallScorer._prepare_flat self activating incorrect w in
  let expected :=
    map (λ e, mkSample (decode (tokenizer self) (tokens e)) (-1) false None)
        incorrect
    ++ concat
         (map (λ '(i, group),
                 map (λ e, mkSample (decode (tokenizer self) (tokens e))
                                    (Z.of_nat i + 1) true None)
                     group)
              (enumerate activating)) in
  (∃ samples,
     flat.1 = Ok samples ∧ deref (heap flat.2) samples = expected)
  ∧ (1 ≤ batch_size self →
     ∃ batches w1,
       RecallScorer._prepare self activating incorrect w = (Ok batches, w1)
       ∧ deref (heap w1) (concat batches) = expected).
Proof.
  intros flat expected.
  assert (expected = assembled (tokenizer self) activating incorrect) as ->
    by done.
  split.
  - unfold flat. rewrite _prepare_flat_run. simpl. eexists. split; [done|].
    rewrite <- length_assembled with (tok := tokenizer self).
    apply deref_fresh.
  - intros Hbs.
    destruct (_prepare_of_flat self activating incorrect w Hbs)
      as (samples & batches & w1 & Hflat & Hprep & -> & -> & Hcat & _).
    exists batches. eexists. split; [done|]. rewrite Hcat. simpl.
    rewrite <- length_assembled with (tok := tokenizer self).
    apply deref_fresh.
Qed.

(** C6.  For a batch size of at least 1 the batches are the consecutive
    chunks of the flat sample list: batch [k] is the [batch_size] samples
    from position [k * batch_size] on, every batch but the last has exactly
    [batch_size] samples, the last has between 1 and [batch_size], and the
    batches concatenated in order are the flat list. *)
Theorem batch_partition self activating incorrect w :
  1 ≤ batch_size self →
  ∃ samples batches w1,
    RecallScorer._prepare_flat self activating incorrect w = (Ok samples, w1)
    ∧ RecallScorer._prepare self activating incorrect w = (Ok batches, w1)
    ∧ concat batches = samples
    ∧ ∀ k batch, batches !! k = Some batch →
        batch = take (Z.to_nat (batch_size self))
                  (drop (k * Z.to_nat (batch_size self)) samples)
        ∧ (1 ≤ length batch ≤ Z.to_nat (batch_size self))%nat
        ∧ ((S k < length batches)%nat →
           length batch = Z.to_nat (batch_size self)).
Proof.
  intros Hbs.
  destruct (_prepare_of_flat self activating incorrect w Hbs)
    as (samples & batches & w1 & Hflat & Hprep & _ & _ & Hcat & _ & Hchunks).
  by exists samples, batches, w1.
Qed.

End AssemblerTheorems.

(** * The claims about a whole scoring call *)

Section CallTheorems.
Context `{Imports} `{Unicode}.

Lemma py_range_negative_step n bs :
  bs < 0 → py_range 0 (Z.of_nat n) bs = Ok [].
Proof.
  intros Hbs. unfold py_range.
  destruct (Z.eqb_spec bs 0) as [|_]; [lia|].
  destruct (Z.ltb_spec 0 bs) as [|_]; [lia|].
  assert ((0 - Z.of_nat n - bs - 1) / - bs < 1) as Hq
    by (apply Z.div_lt_upper_bound; lia).
  by replace (Z.to_nat ((0 - Z.of_nat n - bs - 1) / - bs)) with 0%nat by lia.
Qed.

(** [_prepare] for any batch size: the samples are built in every case;
    a batch size of 0 raises, a negative one yields no batch at all. *)
Lemma _prepare_any self activating incorrect w :
  let w1 := mkWorld (heap w ++ assembled (tokenizer self) activating incorrect)
                    (trace w) in
  let samples := seq (length (heap w))
                     (length incorrect + length (concat activating)) in
  (batch_size self = 0
   ∧ RecallScorer._prepare self activating incorrect w = (Raise ValueError, w1))
  ∨ (batch_size self < 0
     ∧ RecallScorer._prepare self activating incorrect w = (Ok [], w1))
  ∨ (1 ≤ batch_size self
     ∧ ∃ batches,
         RecallScorer._prepare self activating incorrect w = (Ok batches, w1)
         ∧ concat batches = samples
         ∧ length batches = chunk_count (length samples) (batch_size self)).
Proof.
  intros w1 samples.
  destruct (Z.lt_trichotomy (batch_size self) 0) as [Hneg|[Hz|Hpos]].
  - right; left. split; [done|].
    unfold RecallScorer._prepare. unfold bind at 1.
    rewrite _prepare_flat_run. unfold bind, lift.
    by rewrite py_range_negative_step.
  - left. split; [done|].
    unfold RecallScorer._prepare. unfold bind at 1.
    rewrite _prepare_flat_run. unfold bind, lift, py_range.
    by rewrite Hz.
  - right; right. split; [lia|].
    destruct (_prepare_of_flat self activating incorrect w ltac:(lia))
      as (samples' & batches & w1' & _ & Hprep & -> & -> & Hcat & Hlen & _).
    by exists batches.
Qed.

Lemma process_batches_nil self choices explanation w :
  RecallScorer.process_batches self choices [] explanation w = (Ok [], w).
Proof.
  rewrite process_batches_run. simpl.
  by rewrite after_writes_nil, app_nil_r, world_eta.
Qed.

Lemma __call___run self choices scorer_in w :
  RecallScorer.__call__ self choices scorer_in w
  = match RecallScorer._prepare self (test_examples scorer_in)
            (random_examples (record scorer_in)) w with
    | (Ok batches, w1) =>
        RecallScorer.process_batches self choices batches
          (explanation scorer_in) w1
    | (Raise e, w1) => (Raise e, w1)
    end.
Proof.
  unfold RecallScorer.__call__. unfold bind at 1.
  destruct (RecallScorer._prepare _ _ _ _) as [[batches|e] w1]; [|done].
  unfold bind, ret.
  by destruct (RecallScorer.process_batches _ _ _ _ _) as [[out|e] w2].
Qed.

(** C8.  With no random example and no activating example (no group, or
    only empty ones) and a batch size other than 0, the scoring call
    returns the empty sequence and leaves the world as it found it: no
    request is sent to the backend. *)
Theorem empty_input self choices scorer_in w :
  batch_size self ≠ 0 →
  concat (test_examples scorer_in) = [] →
  random_examples (record scorer_in) = [] →
  RecallScorer.__call__ self choices scorer_in w = (Ok [], w)
  ∧ calls_of (trace (RecallScorer.__call__ self choices scorer_in w).2)
    = calls_of (trace w).
Proof.
  intros Hbs Hact Hrnd.
  assert (RecallScorer.__call__ self choices scorer_in w = (Ok [], w)) as Hrun.
  { rewrite __call___run.
    pose proof (_prepare_any self (test_examples scorer_in)
                  (random_examples (record scorer_in)) w) as Hprep.
    cbv zeta in Hprep. rewrite Hrnd, Hact in Hprep. simpl in Hprep.
    assert (assembled (tokenizer self) (test_examples scorer_in) [] = [])
      as Hnil.
    { apply length_zero_iff_nil. by rewrite length_assembled, Hact. }
    rewrite Hnil, app_nil_r, world_eta in Hprep. rewrite Hrnd.
    destruct Hprep as [[Hz _]|[[_ ->]|(Hpos & batches & -> & Hcat & Hlen)]];
      [done| |].
    - apply process_batches_nil.
    - assert (batches = []) as ->.
      { apply length_zero_iff_nil. rewrite Hlen. unfold chunk_count.
        simpl. by rewrite Z.div_small by lia. }
      apply process_batches_nil. }
  split; [done|]. by rewrite Hrun.
Qed.

End CallTheorems.

Section Lifecycle.
Context `{Imports} `{Unicode}.

(** What holds of a sample when it is built. *)
Definition well_labelled (s : Sample) : Prop :=
  predicted s = None
  ∧ ((quantile s = -1 ∧ ground_truth s = false)
     ∨ (1 ≤ quantile s ∧ ground_truth s = true)).

Lemma assembled_well_labelled tok activating incorrect :
  Forall well_labelled (assembled tok activating incorrect).
Proof.
  unfold assembled. apply Forall_app; split.
  - apply Forall_forall. intros s (e & -> & _)%list_elem_of_fmap.
    split; [done|]. by left.
  - unfold labelled_from. generalize 0%nat.
    induction activating as [|g gs IH]; intros i; simpl; [constructor|].
    apply Forall_app; split; [|apply IH].
    apply Forall_forall. intros s (e & -> & _)%list_elem_of_fmap.
    split; [done|]. right. simpl. split; [lia|done].
Qed.

Lemma labels_lookup_total (h1 h2 : list Sample) a :
  labels <$> h1 !! a = labels <$> h2 !! a →
  labels (h1 !!! a) = labels (h2 !!! a).
Proof.
  rewrite !list_lookup_total_alt.
  destruct (h1 !! a), (h2 !! a); simpl; congruence.
Qed.

Lemma writes_of_requests {A} (f : A → Request) (l : list A) :
  writes_of (map (λ x, EGenerate (f x)) l) = [].
Proof. induction l as [|x l IH]; [done|]. exact IH. Qed.



(** The world a scoring call leaves: the samples it built, one request per
    batch, and the writes of [predicted] it made, no sample written twice
    and every written sample in one of the batches. *)
Lemma __call___events self choices scorer_in w :
  let activating := test_examples scorer_in in
  let incorrect := random_examples (record scorer_in) in
  let built := heap w ++ assembled (tokenizer self) activating incorrect in
  ∃ batches writes,
    (RecallScorer.__call__ self choices scorer_in w).2
    = after_writes writes
        (mkWorld built
           (trace w
            ++ map (λ batch,
                      EGenerate (the_request self built batch
                                   (explanation scorer_in)))
                 batches))
    ∧ NoDup writes.*1
    ∧ (∀ a, a ∈ writes.*1 → (length (heap w) ≤ a < length built)%nat)
    ∧ (∀ a, a ∈ writes.*1 → a ∈ concat batches).
Proof.
  intros activating incorrect built. rewrite __call___run.
  fold activating incorrect.
  destruct (_prepare_any self activating incorrect w)
    as [[_ ->]|[[_ ->]|(_ & batches & -> & Hcat & _)]].
  - exists [], []. rewrite after_writes_nil. simpl.
    rewrite app_nil_r. split; [done|]. split; [constructor|].
    split; by intros a Ha%elem_of_nil.
  - rewrite process_batches_nil. exists [], []. rewrite after_writes_nil.
    simpl. rewrite app_nil_r. split; [done|]. split; [constructor|].
    split; by intros a Ha%elem_of_nil.
  - fold built. rewrite process_batches_run. cbv zeta. simpl heap. simpl trace.
    rewrite requests_launched.
    set (ps := launched _ _ _ _ _). set (outs := map _ ps).
    set (n := length batches).
    destruct (run_order_writes outs (completion_order choices (seq 0 n) n)
                (replicate n None)) as (pre & Hpre & Hws).
    assert (pre ⊆+ seq 0 n) as Hsub.
    { transitivity (completion_order choices (seq 0 n) n).
      - by apply prefix_submseteq.
      - apply Permutation_submseteq, order_Permutation. }
    assert (NoDup (concat batches)) as Hnd by (rewrite Hcat; apply NoDup_seq).
    assert (∀ a, a ∈ (concat (map (ws_of outs) pre)).*1 → a ∈ concat batches)
      as Hin.
    { intros a Ha. eapply elem_of_submseteq; [exact Ha|].
      by apply (written_submseteq self (explanation scorer_in)
                  (mkWorld built (trace w)) batches). }
    exists batches, (concat (map (ws_of outs) pre)).
    split; [|split; [|split]].
    + rewrite <- Hws. by destruct (run_order _ _ _) as [[slots|e] ws].
    + by apply (written_NoDup self (explanation scorer_in)
                  (mkWorld built (trace w)) batches Hnd).
    + intros a Ha. apply Hin in Ha.
      rewrite Hcat in Ha. apply elem_of_seq in Ha.
      unfold built. rewrite length_app, length_assembled. lia.
    + exact Hin.
Qed.

Lemma __call___shape self choices scorer_in w :
  let activating := test_examples scorer_in in
  let incorrect := random_examples (record scorer_in) in
  let built := heap w ++ assembled (tokenizer self) activating incorrect in
  ∃ reqs writes,
    (RecallScorer.__call__ self choices scorer_in w).2
    = after_writes writes (mkWorld built (trace w ++ map EGenerate reqs))
    ∧ NoDup writes.*1
    ∧ ∀ a, a ∈ writes.*1 → (length (heap w) ≤ a < length built)%nat.
Proof.
  intros activating incorrect built.
  destruct (__call___events self choices scorer_in w)
    as (batches & writes & Hrun & Hnd & Hrange & _).
  exists (map (λ batch, the_request self built batch (explanation scorer_in))
            batches), writes.
  by rewrite map_map.
Qed.


End Lifecycle.

(** * The claims about single-sample mode and about failures *)

Section SingleTheorems.
Context `{Imports} `{Unicode}.

Lemma query_single_run self a explanation w s :
  (∀ p w1, RecallScorer.query_send self [a] explanation w = (Ok p, w1) →
     generate (client self) (RecallScorer.pend_ticket p)
       (RecallScorer.pend_request p) = Ok (RText s)) →
  RecallScorer.query self [a] explanation w
  = let w1 := mkWorld (heap w)
                (trace w ++ [EGenerate (the_request self (heap w) [a] explanation)]) in
    match last_char s with
    | None => (Raise IndexError, w1)
    | Some c =>
        match decimal c with
        | Some d => (Ok [a], after_writes [(a, d =? 1)] w1)
        | None => (Raise ValueError, w1)
        end
    end.
Proof.
  intros Hans. apply backend_answer in Hans.
  rewrite query_run. cbv zeta. rewrite Hans. unfold outcome. simpl.
  destruct (last_char s) as [c|]; simpl; [|by rewrite after_writes_nil].
  unfold py_int_char.
  destruct (decimal c) as [d|]; simpl; [done|by rewrite after_writes_nil].
Qed.

(** C10, as the code has it.  In single-sample mode a free-text answer
    that is empty, or whose last character is not a decimal digit of the
    Unicode database, makes [query] raise ([IndexError] and [ValueError])
    without writing anything, so [predicted] stays as it was; an answer
    ending in a decimal digit sets [predicted], to false when the value of
    the digit is not 1 and to true when it is 1, whatever the script of the
    digit. *)
Theorem query_single_unparsable self a explanation w s :
  (∀ p w1, RecallScorer.query_send self [a] explanation w = (Ok p, w1) →
     generate (client self) (RecallScorer.pend_ticket p)
       (RecallScorer.pend_request p) = Ok (RText s)) →
  let run := RecallScorer.query self [a] explanation w in
  (last_char s = None →
     run.1 = Raise IndexError
     ∧ heap run.2 = heap w ∧ writes_of (trace run.2) = writes_of (trace w))
  ∧ (∀ c, last_char s = Some c → decimal c = None →
       run.1 = Raise ValueError
       ∧ heap run.2 = heap w ∧ writes_of (trace run.2) = writes_of (trace w))
  ∧ (∀ c d, last_char s = Some c → decimal c = Some d →
       (a < length (heap w))%nat →
       run.1 = Ok [a] ∧ predicted (heap run.2 !!! a) = Some (d =? 1)).
Proof.
  intros Hans run. unfold run. rewrite (query_single_run _ _ _ _ s Hans).
  cbv zeta. split; [|split].
  - intros ->. simpl. split; [done|]. split; [done|].
    by rewrite writes_of_app, app_nil_r.
  - intros c -> ->. simpl. split; [done|]. split; [done|].
    by rewrite writes_of_app, app_nil_r.
  - intros c d -> -> Hvalid. simpl. split; [done|].
    destruct (lookup_lt_is_Some_2 (heap w) a Hvalid) as [x Hx].
    erewrite list_lookup_total_correct;
      [|by rewrite list_lookup_alter_eq, Hx].
    done.
Qed.

Lemma single_batch self activating incorrect w e :
  batch_size self = 1 → activating = [[e]] → incorrect = [] →
  RecallScorer._prepare self activating incorrect w
  = (Ok [[length (heap w)]],
     mkWorld (heap w ++ [fresh (tokenizer self) 1 true e]) (trace w)).
Proof.
  intros Hbs -> ->.
  destruct (_prepare_of_flat self [[e]] [] w ltac:(lia))
    as (samples & batches & w1 & _ & Hprep & -> & -> & Hcat & Hlen & _).
  rewrite Hprep. rewrite Hbs in Hlen. simpl in Hcat, Hlen.
  destruct batches as [|b [|b' bs]]; try discriminate.
  simpl in Hcat. rewrite app_nil_r in Hcat. by subst b.
Qed.

(** C2, as the code has it.  On a batch of exactly one sample [query]
    asks the backend without a schema and reads the answer as free text: it
    returns with [predicted] set to true exactly when the last character of
    the answer is a decimal digit of value 1, which ["1"] is and which the
    digit one of any other script is too.  In particular a scoring call
    with batch size 1 and a single activating sample, answered by a text
    ending in ["1"], returns one record, whose [predicted] is true. *)
Theorem single_sample_mode self :
  (∀ a expl w s,
     (a < length (heap w))%nat →
     (∀ p w1, RecallScorer.query_send self [a] expl w = (Ok p, w1) →
        generate (client self) (RecallScorer.pend_ticket p)
          (RecallScorer.pend_request p) = Ok (RText s)) →
     let run := RecallScorer.query self [a] expl w in
     (∃ req, calls_of (trace run.2) = calls_of (trace w) ++ [req]
             ∧ schema req = None)
     ∧ (run.1 = Ok [a] ∧ predicted (heap run.2 !!! a) = Some true
        ↔ ∃ c, last_char s = Some c ∧ decimal c = Some 1)
     ∧ (last_char s = Some 49%N →
        run.1 = Ok [a] ∧ predicted (heap run.2 !!! a) = Some true))
  ∧ (∀ choices scorer_in w e s,
       batch_size self = 1 →
       test_examples scorer_in = [[e]] →
       random_examples (record scorer_in) = [] →
       (∀ req, generate (client self) (length (calls_of (trace w))) req
               = Ok (RText s)) →
       last_char s = Some 49%N →
       (RecallScorer.__call__ self choices scorer_in w).1
       = Ok [mkScored (decode (tokenizer self) (tokens e)) 1 true (Some true)]).
Proof.
  split.
  - intros a expl w s Hvalid Hans run. unfold run.
    rewrite (query_single_run _ _ _ _ s Hans). cbv zeta.
    destruct (lookup_lt_is_Some_2 (heap w) a Hvalid) as [x Hx].
    split; [|split].
    + exists (the_request self (heap w) [a] expl).
      split; [|done].
      destruct (last_char s) as [c|]; [destruct (decimal c)|]; simpl;
        rewrite ?app_nil_r, ?calls_of_app; try done.
      simpl. by rewrite app_nil_r.
    + destruct (last_char s) as [c|];
        [|split; [by intros []|by intros (c & [=] & _)]].
      destruct (decimal c) as [d|] eqn:Hd; simpl.
      * erewrite list_lookup_total_correct;
          [|by rewrite list_lookup_alter_eq, Hx].
        simpl. split.
        -- intros [_ [= Hc%Z.eqb_eq]]. exists c. by subst.
        -- intros (c' & [= <-] & Hd'). rewrite Hd in Hd'.
           injection Hd' as ->. done.
      * split; [by intros []|]. intros (c' & [= <-] & Hd').
        by rewrite Hd in Hd'.
    + intros ->. rewrite decimal_one. simpl.
      erewrite list_lookup_total_correct;
        [|by rewrite list_lookup_alter_eq, Hx].
      done.
  - intros choices scorer_in w e s Hbs Hact Hrnd Hans Hlast.
    rewrite __call___run.
    rewrite (single_batch self _ _ w e Hbs Hact Hrnd).
    set (a := length (heap w)).
    set (w1 := mkWorld _ _).
    pose proof (process_batches_all_ok self choices [[a]]
                  (explanation scorer_in) w1) as Hrun.
    cbv zeta in Hrun. rewrite Hrun; clear Hrun.
    + simpl fst. f_equal.
      unfold ws_of; simpl. unfold resume_outcome; simpl.
      rewrite Hans. unfold outcome; simpl.
      rewrite Hlast. simpl. unfold py_int_char. rewrite decimal_one. simpl.
      f_equal.
      unfold a. erewrite list_lookup_total_correct;
        [|rewrite list_lookup_alter_eq, lookup_app_r, Nat.sub_diag by lia;
          done].
      done.
    + intros j batch Hj. destruct j as [|j]; [|done].
      injection Hj as <-. unfold val_of. simpl.
      unfold resume_outcome; simpl. rewrite Hans. unfold outcome; simpl.
      rewrite Hlast. simpl. unfold py_int_char. by rewrite decimal_one.
Qed.

End SingleTheorems.

Section FailureTheorems.
Context `{Imports} `{Unicode}.

(** A [query] of batch [j] run on its own ends as the [j]-th task of
    [process_batches] does. *)
Lemma query_alone self batches expl w j bj wj :
  batches !! j = Some bj →
  heap wj = heap w →
  length (calls_of (trace wj)) = (length (calls_of (trace w)) + j)%nat →
  ∃ ws,
    map (resume_outcome self)
      (launched self (heap w) expl (length (calls_of (trace w))) batches) !! j
    = Some ((RecallScorer.query self bj expl wj).1, ws).
Proof.
  intros Hj Hheap Hcalls.
  destruct (outs_lookup self expl w batches j bj Hj)
    as (p & _ & Ho & Hpb & Hpd & Hpt & Hpr).
  rewrite Ho, query_run. cbv zeta. rewrite Hheap, Hcalls.
  unfold resume_outcome. rewrite Hpb, Hpd, Hpt, Hpr. simpl.
  eexists. by rewrite <- surjective_pairing.
Qed.

(** C3, as the code has it.  When the mapping answered to a batched
    request lacks the field of some position, [query] raises [KeyError] for
    the first such position: the samples before it have been written, no
    value is made up for the sample at that position, and a sample that
    does not occur before it is left untouched.  Nothing catches the
    exception: if the query of any batch raises, [process_batches] raises
    too, with the exception of a batch whose query raises, and [__call__]
    ends as [process_batches] does. *)
Theorem missing_field_raises self :
  (∀ pre a post expl w m,
     (1 < length (pre ++ a :: post))%nat →
     (∀ p w1,
        RecallScorer.query_send self (pre ++ a :: post) expl w = (Ok p, w1) →
        generate (client self) (RecallScorer.pend_ticket p)
          (RecallScorer.pend_request p) = Ok (RStruct m)) →
     (∀ i, (i < length pre)%nat → is_Some (m !! RecallScorer.example_key i)) →
     m !! RecallScorer.example_key (length pre) = None →
     let run := RecallScorer.query self (pre ++ a :: post) expl w in
     run.1 = Raise (KeyError (RecallScorer.example_key (length pre)))
     ∧ writes_of (trace run.2)
       = writes_of (trace w)
         ++ map (λ '(i, b), (b, verdict_at m i)) (enumerate pre)
     ∧ (∀ b, b ∉ pre → heap run.2 !! b = heap w !! b))
  ∧ (∀ choices batches expl w k batch wk e,
       batches !! k = Some batch →
       heap wk = heap w →
       length (calls_of (trace wk)) = (length (calls_of (trace w)) + k)%nat →
       (RecallScorer.query self batch expl wk).1 = Raise e →
       ∃ e',
         (RecallScorer.process_batches self choices batches expl w).1 = Raise e'
         ∧ ∃ j bj,
             batches !! j = Some bj
             ∧ ∀ wj,
                 heap wj = heap w →
                 length (calls_of (trace wj))
                 = (length (calls_of (trace w)) + j)%nat →
                 (RecallScorer.query self bj expl wj).1 = Raise e')
  ∧ (∀ choices scorer_in w batches w1,
       RecallScorer._prepare self (test_examples scorer_in)
         (random_examples (record scorer_in)) w = (Ok batches, w1) →
       RecallScorer.__call__ self choices scorer_in w
       = RecallScorer.process_batches self choices batches
           (explanation scorer_in) w1).
Proof.
  split; [|split].
  - intros pre a post expl w m Hlen Hans Hpre Hmiss run. unfold run.
    apply backend_answer in Hans. rewrite query_run. cbv zeta.
    rewrite Hans. unfold outcome.
    assert ((1 <? length (pre ++ a :: post))%nat = true) as ->
      by (apply Nat.ltb_lt; lia).
    rewrite (verdicts_missing m 0 pre a post Hpre Hmiss). simpl.
    split; [done|]. split.
    + rewrite <- app_assoc, !writes_of_app. simpl.
      by rewrite writes_of_write_events.
    + intros b Hb. apply apply_writes_lookup_notin.
      by rewrite verdict_writes_fst.
  - intros choices batches expl w k batch wk e Hk Hheap Hcalls Hfail.
    destruct (query_alone self batches expl w k batch wk Hk Hheap Hcalls)
      as [ws Hok]. rewrite Hfail in Hok.
    rewrite process_batches_run. cbv zeta.
    set (n := length batches).
    set (outs := map _ (launched _ _ _ _ _)) in *.
    set (order := completion_order choices (seq 0 n) n).
    destruct (run_order outs order (replicate n None)) as [[slots|e'] ws']
      eqn:Hro.
    + exfalso.
      destruct (run_order_ok_inv outs order (replicate n None) slots
                  ltac:(by rewrite Hro) k) as [r Hr].
      * unfold order. rewrite order_Permutation. apply elem_of_seq.
        apply lookup_lt_Some in Hk. unfold n. lia.
      * by apply lookup_lt_Some in Hok.
      * unfold val_of in Hr. by rewrite Hok in Hr.
    + simpl. exists e'. split; [done|].
      destruct (run_order_raise outs order (replicate n None) e'
                  ltac:(by rewrite Hro)) as (j & wsj & _ & Hj).
      assert (j < length batches)%nat as Hlt.
      { apply lookup_lt_Some in Hj. unfold outs in Hj.
        by rewrite length_map, length_launched in Hj. }
      destruct (lookup_lt_is_Some_2 batches j Hlt) as [bj Hbj].
      exists j, bj. split; [done|]. intros wj Hheapj Hcallsj.
      destruct (query_alone self batches expl w j bj wj Hbj Hheapj Hcallsj)
        as [ws'' Hq].
      fold outs in Hq. rewrite Hj in Hq. by injection Hq as <- _.
  - intros choices scorer_in w batches w1 Hprep.
    by rewrite __call___run, Hprep.
Qed.

End FailureTheorems.

(** * Further properties of the dispatcher *)

Section DispatcherEdges.
Context `{Imports} `{Unicode}.

(** Whatever the batch and whatever the backend answers, [query] sends
    exactly one request, before any write: its prompt renders the samples
    as lines [Example i: text] numbered by position in the batch, it
    carries a schema exactly when the batch has more than one sample, and
    the scorer's [max_tokens] and [temperature].  The writes that follow
    go to a prefix of the batch. *)
Theorem query_sends_one_request self batch expl w :
  let run := RecallScorer.query self batch expl w in
  let batched := (1 <? length batch)%nat in
  let req :=
    {| prompt :=
         clean_prompt expl
           (join RecallScorer.newline
              (map (λ '(i, a),
                      "Example " +:+ pretty i +:+ ": " +:+ text (heap w !!! a))
                   (enumerate batch)))
           batched;
       schema := if batched then Some (create_response_model (length batch))
                 else None;
       req_max_tokens := max_tokens self;
       req_temperature := temperature self |} in
  ∃ ws,
    trace run.2
    = trace w ++ EGenerate req :: map (λ '(a, v), ESetPredicted a v) ws
    ∧ ws.*1 `prefix_of` batch
    ∧ calls_of (trace run.2) = calls_of (trace w) ++ [req].
Proof.
  intros run batched req. unfold run. rewrite query_run. cbv zeta.
  change (the_request self (heap w) batch expl) with req.
  fold batched. eexists. simpl. split; [|split].
  - by rewrite <- app_assoc.
  - apply outcome_prefix.
  - rewrite <- app_assoc, calls_of_app. simpl.
    by rewrite (calls_of_write_events _).
Qed.

Lemma prompt_lines_ext h1 h2 i batch :
  (∀ a, a ∈ batch → text (h1 !!! a) = text (h2 !!! a)) →
  prompt_lines h1 i batch = prompt_lines h2 i batch.
Proof.
  unfold prompt_lines. revert i; induction batch as [|a batch IH]; intros i Ht.
  - done.
  - simpl. rewrite (Ht a) by left. f_equal. apply IH.
    intros b Hb. apply Ht. by right.
Qed.

(** The judge is shown the texts only: if two worlds hold the same text
    for the samples of a batch (whatever their quantiles, ground truths and
    earlier predictions) and the backend has received as many requests in
    both, [query] sends the same request, ends the same way and makes the
    same writes in both. *)
Theorem query_reads_only_text self batch expl w1 w2 :
  (∀ a, a ∈ batch → text (heap w1 !!! a) = text (heap w2 !!! a)) →
  length (calls_of (trace w1)) = length (calls_of (trace w2)) →
  let run1 := RecallScorer.query self batch expl w1 in
  let run2 := RecallScorer.query self batch expl w2 in
  run1.1 = run2.1
  ∧ ∃ req ws,
      trace run1.2
      = trace w1 ++ EGenerate req :: map (λ '(a, v), ESetPredicted a v) ws
      ∧ trace run2.2
        = trace w2 ++ EGenerate req :: map (λ '(a, v), ESetPredicted a v) ws.
Proof.
  intros Htext Hcalls run1 run2. unfold run1, run2.
  rewrite !query_run. cbv zeta.
  assert (the_request self (heap w1) batch expl
          = the_request self (heap w2) batch expl) as ->.
  { unfold the_request. by rewrite (prompt_lines_ext _ (heap w2) 0 batch Htext). }
  rewrite Hcalls. simpl. split; [done|].
  eexists _, _. by rewrite <- !app_assoc.
Qed.

(** [query] on an empty batch never returns: whatever the backend answers
    it raises, and it writes nothing.  The exception is the client's own
    when the client raises, [KeyError] (for the index -1) on a mapping,
    [IndexError] on an empty text and [ValueError] on a text that does not
    end in a decimal digit; a text that ends in a decimal digit is read,
    and then [batch[0]] raises [IndexError]. *)
Theorem query_empty_batch self expl w :
  let run := RecallScorer.query self [] expl w in
  let answer := generate (client self) (length (calls_of (trace w)))
                  (the_request self (heap w) [] expl) in
  run.1
  = match answer with
    | Raise e => Raise e
    | Ok (RStruct _) => Raise (KeyError "-1")
    | Ok (RText s) =>
        match last_char s with
        | None => Raise IndexError
        | Some c =>
            match decimal c with
            | None => Raise ValueError
            | Some _ => Raise IndexError
            end
        end
    end
  ∧ (∃ e, run.1 = Raise e)
  ∧ heap run.2 = heap w
  ∧ writes_of (trace run.2) = writes_of (trace w).
Proof.
  intros run answer. unfold run, answer. rewrite query_run. cbv zeta.
  unfold outcome. simpl.
  destruct (generate _ _ _) as [[s|m]|e]; simpl.
  - destruct (last_char s) as [c|]; simpl.
    + unfold py_int_char. destruct (decimal c) as [d|]; simpl;
        (split; [done|]; split; [eauto|]; split; [done|]);
        by rewrite !writes_of_app, !app_nil_r.
    + split; [done|]. split; [eauto|]. split; [done|].
      by rewrite !writes_of_app, !app_nil_r.
  - split; [done|]. split; [eauto|]. split; [done|].
    by rewrite !writes_of_app, !app_nil_r.
  - split; [done|]. split; [eauto|]. split; [done|].
    by rewrite !writes_of_app, !app_nil_r.
Qed.

(** An exception of the client is not caught: [query] raises it as it is,
    without having written anything. *)
Theorem query_backend_error self batch expl w e :
  (∀ p w1, RecallScorer.query_send self batch expl w = (Ok p, w1) →
     generate (client self) (RecallScorer.pend_ticket p)
       (RecallScorer.pend_request p) = Raise e) →
  let run := RecallScorer.query self batch expl w in
  run.1 = Raise e
  ∧ heap run.2 = heap w
  ∧ writes_of (trace run.2) = writes_of (trace w).
Proof.
  intros Hans run. unfold run. apply backend_answer in Hans.
  rewrite query_run. cbv zeta. rewrite Hans. simpl.
  split; [done|]. split; [done|]. by rewrite !writes_of_app, !app_nil_r.
Qed.

(** An answer of the wrong kind is an error, not a judgment: free text
    where a mapping is expected raises [TypeError], a mapping where free
    text is expected raises [KeyError] (for the index -1); nothing is
    written in either case. *)
Theorem query_wrong_kind_of_answer self expl w :
  (∀ batch s,
     (1 < length batch)%nat →
     (∀ p w1, RecallScorer.query_send self batch expl w = (Ok p, w1) →
        generate (client self) (RecallScorer.pend_ticket p)
          (RecallScorer.pend_request p) = Ok (RText s)) →
     let run := RecallScorer.query self batch expl w in
     run.1 = Raise TypeError
     ∧ heap run.2 = heap w
     ∧ writes_of (trace run.2) = writes_of (trace w))
  ∧ (∀ batch m,
       (length batch ≤ 1)%nat →
       (∀ p w1, RecallScorer.query_send self batch expl w = (Ok p, w1) →
          generate (client self) (RecallScorer.pend_ticket p)
            (RecallScorer.pend_request p) = Ok (RStruct m)) →
       let run := RecallScorer.query self batch expl w in
       run.1 = Raise (KeyError "-1")
       ∧ heap run.2 = heap w
       ∧ writes_of (trace run.2) = writes_of (trace w)).
Proof.
  split.
  - intros batch s Hlen Hans run. unfold run. apply backend_answer in Hans.
    rewrite query_run. cbv zeta. rewrite Hans. unfold outcome.
    assert ((1 <? length batch)%nat = true) as -> by (apply Nat.ltb_lt; lia).
    destruct batch as [|a batch]; [simpl in Hlen; lia|]. simpl.
    split; [done|]. split; [done|]. by rewrite !writes_of_app, !app_nil_r.
  - intros batch m Hlen Hans run. unfold run. apply backend_answer in Hans.
    rewrite query_run. cbv zeta. rewrite Hans. unfold outcome.
    assert ((1 <? length batch)%nat = false) as -> by (apply Nat.ltb_ge; lia).
    simpl. split; [done|]. split; [done|].
    by rewrite !writes_of_app, !app_nil_r.
Qed.

End DispatcherEdges.

Section BatchedAnswers.
Context `{Imports} `{Unicode}.

Lemma enumerate_from_app {A} i (l k : list A) :
  enumerate_from i (l ++ k)
  = enumerate_from i l ++ enumerate_from (i + length l) k.
Proof.
  revert i; induction l as [|x l IH]; intros i; simpl.
  - by rewrite Nat.add_0_r.
  - rewrite IH. by rewrite Nat.add_succ_r.
Qed.

(** A batched [query] whose answer holds a field for every position. *)
Lemma query_batched_run self batch expl w m :
  (1 < length batch)%nat →
  (∀ p w1, RecallScorer.query_send self batch expl w = (Ok p, w1) →
     generate (client self) (RecallScorer.pend_ticket p)
       (RecallScorer.pend_request p) = Ok (RStruct m)) →
  (∀ i, (i < length batch)%nat → is_Some (m !! RecallScorer.example_key i)) →
  RecallScorer.query self batch expl w
  = (Ok batch,
     after_writes (map (λ '(i, a), (a, verdict_at m i)) (enumerate batch))
       (mkWorld (heap w)
          (trace w ++ [EGenerate (the_request self (heap w) batch expl)]))).
Proof.
  intros Hlen Hans Hkeys. apply backend_answer in Hans.
  rewrite query_run. cbv zeta. rewrite Hans. unfold outcome.
  assert ((1 <? length batch)%nat = true) as -> by (apply Nat.ltb_lt; lia).
  by rewrite verdicts_present.
Qed.

Lemma apply_writes_last ws1 ws2 a v h :
  a ∉ ws2.*1 → (a < length h)%nat →
  predicted (apply_writes (ws1 ++ (a, v) :: ws2) h !!! a) = Some v.
Proof.
  intros Hnot Hvalid.
  destruct (lookup_lt_is_Some_2 (apply_writes ws1 h) a) as [s Hs].
  { by rewrite length_apply_writes. }
  erewrite list_lookup_total_correct; [|
    rewrite apply_writes_app;
    change (apply_writes ((a, v) :: ws2) (apply_writes ws1 h))
      with (apply_writes ws2 (alter (with_predicted v) a (apply_writes ws1 h)));
    rewrite apply_writes_lookup_notin by done;
    by rewrite list_lookup_alter_eq, Hs].
  done.
Qed.

(** What a sample holds after a batched [query]: the verdict of the last
    position at which it occurs. *)
Lemma batched_final_predicted self batch expl w m i a :
  (1 < length batch)%nat →
  (∀ b, b ∈ batch → (b < length (heap w))%nat) →
  (∀ p w1, RecallScorer.query_send self batch expl w = (Ok p, w1) →
     generate (client self) (RecallScorer.pend_ticket p)
       (RecallScorer.pend_request p) = Ok (RStruct m)) →
  (∀ j, (j < length batch)%nat → is_Some (m !! RecallScorer.example_key j)) →
  batch !! i = Some a → a ∉ drop (S i) batch →
  predicted (heap (RecallScorer.query self batch expl w).2 !!! a)
  = Some (verdict_at m i).
Proof.
  intros Hlen Hvalid Hans Hkeys Hi Hlast.
  rewrite (query_batched_run self batch expl w m Hlen Hans Hkeys). simpl.
  unfold enumerate.
  rewrite <- (take_drop_middle batch i a Hi) at 1.
  rewrite enumerate_from_app, map_app. simpl.
  rewrite length_take_le by (apply lookup_lt_Some in Hi; lia).
  apply apply_writes_last.
  - by rewrite verdict_writes_fst.
  - apply Hvalid. by eapply list_elem_of_lookup_2.
Qed.

(** A sample that sits at two positions of a batch is written twice, and
    keeps the verdict of the later position. *)
Theorem shared_sample_last_position_wins self batch expl w m i j a v :
  (1 < length batch)%nat →
  (∀ b, b ∈ batch → (b < length (heap w))%nat) →
  (∀ p w1, RecallScorer.query_send self batch expl w = (Ok p, w1) →
     generate (client self) (RecallScorer.pend_ticket p)
       (RecallScorer.pend_request p) = Ok (RStruct m)) →
  (∀ k, (k < length batch)%nat → is_Some (m !! RecallScorer.example_key k)) →
  batch !! i = Some a → batch !! j = Some a → (i < j)%nat →
  a ∉ drop (S j) batch →
  m !! RecallScorer.example_key j = Some v →
  let run := RecallScorer.query self batch expl w in
  run.1 = Ok batch
  ∧ predicted (heap run.2 !!! a) = Some (py_eq_1 v)
  ∧ (a, verdict_at m i) ∈ writes_of (trace run.2)
  ∧ (a, verdict_at m j) ∈ writes_of (trace run.2).
Proof.
  intros Hlen Hvalid Hans Hkeys Hi Hj Hij Hlast Hv run. unfold run.
  split; [by rewrite (query_batched_run self batch expl w m)|].
  split.
  { rewrite (batched_final_predicted self batch expl w m j a) by done.
    unfold verdict_at. by rewrite Hv. }
  rewrite (query_batched_run self batch expl w m Hlen Hans Hkeys). simpl.
  rewrite <- app_assoc, !writes_of_app, writes_of_write_events. simpl.
  split; apply elem_of_app; right.
  - apply (verdict_writes_elem (verdict_at m) 0 batch i a Hi).
  - apply (verdict_writes_elem (verdict_at m) 0 batch j a Hj).
Qed.

(** Which fields count as a positive judgment: the integer 1, [True] and
    the float [1.0], nothing else.  A string, even ["1"], a null and any
    other number give [predicted = False], without any failure. *)
Theorem batched_positive_values self batch expl w m i a v :
  (1 < length batch)%nat →
  (∀ b, b ∈ batch → (b < length (heap w))%nat) →
  (∀ p w1, RecallScorer.query_send self batch expl w = (Ok p, w1) →
     generate (client self) (RecallScorer.pend_ticket p)
       (RecallScorer.pend_request p) = Ok (RStruct m)) →
  (∀ k, (k < length batch)%nat → is_Some (m !! RecallScorer.example_key k)) →
  batch !! i = Some a → a ∉ drop (S i) batch →
  m !! RecallScorer.example_key i = Some v →
  let run := RecallScorer.query self batch expl w in
  run.1 = Ok batch
  ∧ (predicted (heap run.2 !!! a) = Some true
     ↔ v = JInt 1 ∨ v = JBool true
       ∨ ∃ f, v = JFloat f ∧ PrimFloat.eqb f 1 = true)
  ∧ (predicted (heap run.2 !!! a) = Some true
     ∨ predicted (heap run.2 !!! a) = Some false).
Proof.
  intros Hlen Hvalid Hans Hkeys Hi Hlast Hv run. unfold run.
  split; [by rewrite (query_batched_run self batch expl w m)|].
  rewrite (batched_final_predicted self batch expl w m i a) by done.
  unfold verdict_at. rewrite Hv. simpl. split.
  - destruct v as [|b|z|f|s]; simpl; split.
    + intros [=].
    + intros [?|[?|(f & ? & _)]]; discriminate.
    + intros [= ->]. by right; left.
    + intros [?|[[= ->]|(f & ? & _)]]; done.
    + intros [= Hz%Z.eqb_eq]. left. by subst.
    + intros [[= ->]|[?|(f & ? & _)]]; done.
    + intros [= Hf]. right; right. eauto.
    + intros [?|[?|(f' & [= <-] & ->)]]; done.
    + intros [=].
    + intros [?|[?|(f & ? & _)]]; discriminate.
  - destruct (py_eq_1 v); auto.
Qed.

Global Instance example_key_inj : Inj (=) (=) RecallScorer.example_key.
Proof.
  intros i j Heq. unfold RecallScorer.example_key in Heq.
  apply (inj (String.app "example_")) in Heq.
  by apply (inj pretty) in Heq.
Qed.

(** The mapping a backend that follows the schema sends for the judgments
    [js]: field [example_i] holds 1 or 0. *)
Definition conforming_answer (js : list bool) : gmap string jvalue :=
  list_to_map
    (map (λ ij : nat * bool,
            (RecallScorer.example_key ij.1, JInt (if ij.2 then 1 else 0)))
         (enumerate js)).

Lemma conforming_answer_lookup (js : list bool) (i : nat) (j : bool) :
  js !! i = Some j →
  conforming_answer js !! RecallScorer.example_key i
  = Some (JInt (if j then 1 else 0)).
Proof.
  intros Hi. unfold conforming_answer. apply elem_of_list_to_map_1.
  - assert (∀ k (l : list bool),
      (map (λ ij : nat * bool,
              (RecallScorer.example_key ij.1, JInt (if ij.2 then 1 else 0)))
           (enumerate_from k l)).*1
      = RecallScorer.example_key <$> seq k (length l)) as Hkeys.
    { intros k l; revert k; induction l as [|x l IH]; intros k; simpl; [done|].
      f_equal. apply IH. }
    unfold enumerate. rewrite Hkeys.
    apply NoDup_fmap_2; [apply _|apply NoDup_seq].
  - apply list_elem_of_fmap. exists (i, j). split; [done|].
    apply list_elem_of_lookup. exists i. unfold enumerate.
    by rewrite enumerate_from_lookup, Hi.
Qed.

(** Round trip through the structured answer: when the backend encodes one
    judgment per sample as the schema asks, a batch of distinct samples
    reads back exactly these judgments, position by position. *)
Theorem conforming_answer_round_trip self batch expl w js :
  (1 < length batch)%nat →
  NoDup batch →
  (∀ b, b ∈ batch → (b < length (heap w))%nat) →
  length js = length batch →
  (∀ p w1, RecallScorer.query_send self batch expl w = (Ok p, w1) →
     generate (client self) (RecallScorer.pend_ticket p)
       (RecallScorer.pend_request p) = Ok (RStruct (conforming_answer js))) →
  let run := RecallScorer.query self batch expl w in
  run.1 = Ok batch
  ∧ map (λ a, predicted (heap run.2 !!! a)) batch = map Some js.
Proof.
  intros Hlen Hnd Hvalid Hjs Hans run. unfold run.
  assert (∀ k, (k < length batch)%nat →
            is_Some (conforming_answer js !! RecallScorer.example_key k))
    as Hkeys.
  { intros k Hk. destruct (lookup_lt_is_Some_2 js k) as [j Hj]; [lia|].
    rewrite (conforming_answer_lookup js k j Hj). eauto. }
  split; [by rewrite (query_batched_run self batch expl w (conforming_answer js))|].
  apply list_eq; intros i. rewrite !list_lookup_fmap.
  destruct (batch !! i) as [a|] eqn:Hi; simpl.
  - destruct (lookup_lt_is_Some_2 js i) as [j Hj].
    { apply lookup_lt_Some in Hi. lia. }
    rewrite Hj. simpl. f_equal.
    rewrite (batched_final_predicted self batch expl w (conforming_answer js) i a)
      by (try done; intros Hin%list_elem_of_lookup;
          destruct Hin as [k Hk]; rewrite lookup_drop in Hk;
          pose proof (NoDup_lookup _ _ _ _ Hnd Hi Hk); lia).
    unfold verdict_at. rewrite (conforming_answer_lookup js i j Hj). simpl.
    by destruct j.
  - assert (js !! i = None) as ->; [|done].
    apply lookup_ge_None. apply lookup_ge_None in Hi. lia.
Qed.

End BatchedAnswers.

(** * Further properties of a scoring call *)

Section CallEdges.
Context `{Imports} `{Unicode}.

Lemma calls_of_generates (reqs : list Request) :
  calls_of (map EGenerate reqs) = reqs.
Proof.
  induction reqs as [|r reqs IH]; [done|].
  change (calls_of (map EGenerate (r :: reqs)))
    with (r :: calls_of (map EGenerate reqs)).
  by rewrite IH.
Qed.

Lemma process_batches_trace self choices batches expl w :
  let run := RecallScorer.process_batches self choices batches expl w in
  ∃ ws,
    trace run.2
    = trace w
      ++ map (λ batch, EGenerate (the_request self (heap w) batch expl)) batches
      ++ map (λ '(a, v), ESetPredicted a v) ws
    ∧ ws.*1 ⊆+ concat batches
    ∧ calls_of (trace run.2)
      = calls_of (trace w)
        ++ map (λ batch, the_request self (heap w) batch expl) batches.
Proof.
  intros run. unfold run. rewrite process_batches_run. cbv zeta.
  set (n := length batches).
  set (ps := launched _ _ _ _ _). set (outs := map _ ps).
  destruct (run_order_writes outs (completion_order choices (seq 0 n) n)
              (replicate n None)) as (pre & Hpre & Hws).
  exists (concat (map (ws_of outs) pre)).
  assert (trace (after_writes (run_order outs
                   (completion_order choices (seq 0 n) n) (replicate n None)).2
                   (mkWorld (heap w) (trace w ++ requests ps)))
          = trace w
            ++ map (λ batch, EGenerate (the_request self (heap w) batch expl))
                 batches
            ++ write_events (concat (map (ws_of outs) pre))) as Htrace.
  { rewrite Hws. simpl. unfold ps. by rewrite requests_launched, <- app_assoc. }
  assert (∀ r : result (list ScoredSample) * world,
            trace r.2 = trace w
              ++ map (λ batch, EGenerate (the_request self (heap w) batch expl))
                   batches
              ++ write_events (concat (map (ws_of outs) pre)) →
            trace r.2
            = trace w
              ++ map (λ batch, EGenerate (the_request self (heap w) batch expl))
                   batches
              ++ map (λ '(a, v), ESetPredicted a v)
                   (concat (map (ws_of outs) pre))
            ∧ (concat (map (ws_of outs) pre)).*1 ⊆+ concat batches
            ∧ calls_of (trace r.2)
              = calls_of (trace w)
                ++ map (λ batch, the_request self (heap w) batch expl) batches)
    as Hgoal.
  { intros r Hr. split; [exact Hr|]. split.
    - apply (written_submseteq self expl w batches).
      transitivity (completion_order choices (seq 0 n) n).
      + by apply prefix_submseteq.
      + apply Permutation_submseteq, order_Permutation.
    - rewrite Hr, !calls_of_app, calls_of_write_events, app_nil_r.
      f_equal. rewrite <- (calls_of_generates
        (map (λ batch, the_request self (heap w) batch expl) batches)).
      by rewrite map_map. }
  apply Hgoal.
  by destruct (run_order _ _ _) as [[slots|e] ws].
Qed.

(** [process_batches] sends one request per batch, in batch order,
    whatever the answers and the order of completion: the request of a
    batch is the one a [query] of that batch sends, built from that batch
    alone.  All its writes go to samples of the batches, to each at most as
    often as it occurs in them. *)
Theorem process_batches_requests self choices batches expl w :
  let run := RecallScorer.process_batches self choices batches expl w in
  calls_of (trace run.2)
  = calls_of (trace w)
    ++ map (λ batch, the_request self (heap w) batch expl) batches
  ∧ ∃ ws,
      writes_of (trace run.2) = writes_of (trace w) ++ ws
      ∧ ws.*1 ⊆+ concat batches.
Proof.
  intros run.
  destruct (process_batches_trace self choices batches expl w)
    as (ws & Htrace & Hsub & Hcalls).
  split; [exact Hcalls|]. exists ws. split; [|exact Hsub].
  fold run in Htrace. rewrite Htrace, !writes_of_app.
  rewrite writes_of_requests.
  change (map (λ '(a, v), ESetPredicted a v) ws) with (write_events ws).
  by rewrite writes_of_write_events.
Qed.

(** *** When a call returns *)

(** An answer the dispatcher can read for a batch of [n] samples: a
    mapping with the fields of all [n] positions when [n] is more than one,
    a text ending in a decimal digit (of any script) otherwise. *)
Definition readable (answer : result Response) (n : nat) : Prop :=
  if (1 <? n)%nat
  then ∃ m, answer = Ok (RStruct m)
            ∧ ∀ i, (i < n)%nat → is_Some (m !! RecallScorer.example_key i)
  else ∃ s c, answer = Ok (RText s)
              ∧ last_char s = Some c ∧ is_Some (decimal c).

Lemma verdicts_ok_keys m i batch :
  (verdicts (RStruct m) i batch).1 = Ok tt →
  ∀ j, (j < length batch)%nat →
    is_Some (m !! RecallScorer.example_key (i + j)).
Proof.
  revert i; induction batch as [|a batch IH]; intros i Hok j Hj.
  - simpl in Hj. lia.
  - simpl in Hok.
    destruct (m !! RecallScorer.example_key i) as [v|] eqn:Hm; [|done].
    destruct (verdicts (RStruct m) (S i) batch) as [r ws] eqn:Hv.
    simpl in Hok. destruct j as [|j].
    + rewrite Nat.add_0_r, Hm. eauto.
    + replace (i + S j)%nat with (S i + j)%nat by lia.
      apply IH; [by rewrite Hv|]. simpl in Hj. lia.
Qed.

Lemma verdicts_ok_inv selections i a batch :
  (verdicts selections i (a :: batch)).1 = Ok tt →
  ∃ m, selections = RStruct m
       ∧ ∀ j, (j < length (a :: batch))%nat →
           is_Some (m !! RecallScorer.example_key (i + j)).
Proof.
  intros Hok. destruct selections as [s|m]; [done|].
  exists m. split; [done|]. by apply verdicts_ok_keys.
Qed.

Lemma verdicts_ok_fst selections i batch :
  (verdicts selections i batch).1 = Ok tt →
  (verdicts selections i batch).2.*1 = batch.
Proof.
  revert i; induction batch as [|a batch IH]; intros i Hok; [done|].
  cbn [verdicts] in *.
  destruct (RecallScorer.getitem selections (RecallScorer.example_key i))
    as [v|e]; [|done].
  specialize (IH (S i)).
  destruct (verdicts selections (S i) batch) as [r ws]. simpl in *.
  f_equal. by apply IH.
Qed.

Lemma outcome_ok_iff answer batch :
  (∃ b, (outcome answer (1 <? length batch)%nat batch).1 = Ok b)
  ↔ batch ≠ [] ∧ readable answer (length batch).
Proof.
  unfold outcome, readable.
  destruct (1 <? length batch)%nat eqn:Hb.
  - apply Nat.ltb_lt in Hb. split.
    + intros [b Hok]. destruct answer as [sel|e]; [|done].
      destruct batch as [|a batch]; [simpl in Hb; lia|].
      split; [done|].
      destruct (verdicts sel 0 (a :: batch)) as [[[]|e] ws] eqn:Hv; [|done].
      destruct (verdicts_ok_inv sel 0 a batch) as (m & -> & Hkeys).
      { by rewrite Hv. }
      exists m. split; [done|]. intros i Hi. by apply (Hkeys i).
    + intros [_ (m & -> & Hkeys)].
      rewrite verdicts_present by done. eauto.
  - apply Nat.ltb_ge in Hb. split.
    + intros [b Hok]. destruct answer as [[s|m]|e]; try done. simpl in Hok.
      destruct (last_char s) as [c|] eqn:Hc; [|done]. simpl in Hok.
      unfold py_int_char in Hok.
      destruct (decimal c) as [d|] eqn:Hd; [|done]. simpl in Hok.
      destruct batch as [|a batch]; [done|]. split; [done|].
      exists s, c. by rewrite Hd.
    + intros [Hne (s & c & -> & Hc & [d Hd])]. simpl. rewrite Hc. simpl.
      unfold py_int_char. rewrite Hd. simpl.
      destruct batch as [|a batch]; [done|]. simpl. eauto.
Qed.

Lemma outcome_ok_writes answer batch b :
  (outcome answer (1 <? length batch)%nat batch).1 = Ok b →
  (outcome answer (1 <? length batch)%nat batch).2.*1 = batch.
Proof.
  unfold outcome. destruct answer as [sel|e]; [|done].
  destruct (1 <? length batch)%nat eqn:Hb.
  - pose proof (verdicts_ok_fst sel 0 batch) as Hfst.
    destruct (verdicts sel 0 batch) as [[[]|e] ws]; [|done].
    intros _. by apply Hfst.
  - apply Nat.ltb_ge in Hb.
    destruct (RecallScorer.getitem_last sel) as [c|e]; [|done].
    destruct (py_int_char c) as [n|e]; [|done].
    destruct batch as [|a [|a' batch]]; simpl in *; [done|done|lia].
Qed.

(** [process_batches] returns exactly when no batch is empty and every
    batch gets an answer the dispatcher can read: a mapping with all the
    fields for several samples, a text whose last character [int] accepts
    for a single one.  The order of completion plays no part in it. *)
Theorem process_batches_returns_iff self choices batches expl w :
  (∃ out w',
     RecallScorer.process_batches self choices batches expl w = (Ok out, w'))
  ↔ ∀ k batch,
      batches !! k = Some batch →
      batch ≠ []
      ∧ readable
          (generate (client self) (length (calls_of (trace w)) + k)
             (the_request self (heap w) batch expl))
          (length batch).
Proof.
  split.
  - intros (out & w' & Hrun) k batch Hk.
    destruct (process_batches_ok_inv _ _ _ _ _ _ _ Hrun) as (Hval & _).
    specialize (Hval k batch Hk).
    destruct (outs_lookup self expl w batches k batch Hk)
      as (p & _ & Ho & Hpb & Hpd & Hpt & Hpr).
    unfold val_of in Hval. rewrite Ho in Hval.
    unfold resume_outcome in Hval. rewrite Hpb, Hpd, Hpt, Hpr in Hval.
    apply outcome_ok_iff.
    destruct (outcome _ _ _) as [[b|e] ws]; [eauto|done].
  - intros Hall.
    pose proof (process_batches_all_ok self choices batches expl w) as Hrun.
    cbv zeta in Hrun. eexists _, _. apply Hrun.
    intros k batch Hk. destruct (Hall k batch Hk) as [Hne Hread].
    destruct (outs_lookup self expl w batches k batch Hk)
      as (p & _ & Ho & Hpb & Hpd & Hpt & Hpr).
    unfold val_of. rewrite Ho.
    unfold resume_outcome. rewrite Hpb, Hpd, Hpt, Hpr.
    destruct (proj2 (outcome_ok_iff _ batch) (conj Hne Hread)) as [b Hb].
    pose proof (outcome_ok _ _ _ _ Hb) as ->.
    by destruct (outcome _ _ _) as [[b'|e] ws]; simpl in *; simplify_eq.
Qed.

End CallEdges.

Section CallResults.
Context `{Imports} `{Unicode}.

Lemma apply_writes_written ws h a :
  a ∈ ws.*1 → (a < length h)%nat →
  is_Some (predicted (apply_writes ws h !!! a)).
Proof.
  intros Hin Hvalid. induction ws as [|[b v] ws IH] using rev_ind.
  - by apply elem_of_nil in Hin.
  - destruct (decide (b = a)) as [->|Hne].
    + rewrite (apply_writes_last ws [] a v h); [eauto| |done].
      by intros ?%elem_of_nil.
    + rewrite fmap_app in Hin. apply elem_of_app in Hin as [Hin|Hin].
      * rewrite apply_writes_app.
        change (apply_writes [(b, v)] (apply_writes ws h))
          with (alter (with_predicted v) b (apply_writes ws h)).
        rewrite list_lookup_total_alt, list_lookup_alter_ne by done.
        rewrite <- list_lookup_total_alt. by apply IH.
      * apply elem_of_cons in Hin as [->|Hin]; [done|].
        by apply elem_of_nil in Hin.
Qed.

Lemma process_batches_judges_all self choices batches expl w out w' :
  RecallScorer.process_batches self choices batches expl w = (Ok out, w') →
  (∀ a, a ∈ concat batches → (a < length (heap w))%nat) →
  length out = length (concat batches)
  ∧ Forall (λ r, is_Some (r_predicted r)) out.
Proof.
  intros Hrun Hvalid.
  destruct (process_batches_ok_inv _ _ _ _ _ _ _ Hrun) as (Hval & Hw' & ->).
  unfold deref. split; [by rewrite !length_map|].
  rewrite !Forall_fmap. apply Forall_forall. intros a Ha. simpl.
  rewrite Hw'. simpl.
  apply apply_writes_written; [|by apply Hvalid].
  apply elem_of_concat_inv in Ha as (batch & Hbatch & Ha).
  apply list_elem_of_lookup in Hbatch as [k Hk].
  set (outs := map _ (launched _ _ _ _ _)) in *.
  assert ((ws_of outs k).*1 = batch) as Hws.
  { destruct (outs_lookup self expl w batches k batch Hk)
      as (p & _ & Ho & Hpb & Hpd & Hpt & Hpr).
    pose proof (Hval k batch Hk) as Hv. unfold val_of in Hv.
    fold outs in Ho. rewrite Ho in Hv. unfold ws_of. rewrite Ho.
    unfold resume_outcome in *. rewrite Hpb, Hpd in *.
    destruct (outcome _ _ _) as [[b|e] ws] eqn:Hoc; [|done].
    simpl. change ws with ((Ok b : result (list nat), ws).2). rewrite <- Hoc.
    apply (outcome_ok_writes _ _ b). by rewrite Hoc. }
  apply list_elem_of_fmap.
  assert (a ∈ (ws_of outs k).*1) as Hin by (by rewrite Hws).
  apply list_elem_of_fmap in Hin as (av & -> & Hav).
  exists av. split; [done|].
  apply (elem_of_concat _ (ws_of outs k)); [|done].
  apply list_elem_of_fmap. exists k. split; [done|].
  rewrite order_Permutation. apply elem_of_seq.
  apply lookup_lt_Some in Hk. lia.
Qed.

(** When [process_batches] returns, every sample of every batch has been
    judged: the output has one record per sample and none of them has
    [predicted] unset. *)
Theorem process_batches_populates self choices batches expl w out w' :
  RecallScorer.process_batches self choices batches expl w = (Ok out, w') →
  (∀ a, a ∈ concat batches → (a < length (heap w))%nat) →
  length out = length (concat batches)
  ∧ Forall (λ r, is_Some (r_predicted r)) out.
Proof. apply process_batches_judges_all. Qed.

(** End to end: with a batch size of at least 1, the records a scoring
    call returns are, in order, one per example, the random examples first
    and then the activating groups; each repeats the text, quantile and
    ground truth its sample was built with, and each has a prediction. *)
Theorem call_returns_labelled_records self choices scorer_in w out w' :
  1 ≤ batch_size self →
  RecallScorer.__call__ self choices scorer_in w = (Ok out, w') →
  map (λ r, mkSample (r_text r) (r_quantile r) (r_ground_truth r) None) out
  = map (λ e, mkSample (decode (tokenizer self) (tokens e)) (-1) false None)
        (random_examples (record scorer_in))
    ++ concat
         (map (λ '(i, group),
                 map (λ e, mkSample (decode (tokenizer self) (tokens e))
                                    (Z.of_nat i + 1) true None)
                     group)
              (enumerate (test_examples scorer_in)))
  ∧ Forall (λ r, is_Some (r_predicted r)) out.
Proof.
  intros Hbs Hrun. rewrite __call___run in Hrun.
  destruct (_prepare_of_flat self (test_examples scorer_in)
              (random_examples (record scorer_in)) w Hbs)
    as (samples & batches & w1 & _ & Hprep & -> & -> & Hcat & _).
  rewrite Hprep in Hrun.
  set (built := assembled (tokenizer self) (test_examples scorer_in)
                  (random_examples (record scorer_in))) in *.
  assert (∀ a, a ∈ concat batches →
            (length (heap w) ≤ a < length (heap w ++ built))%nat) as Hrange.
  { intros a Ha. rewrite Hcat in Ha. apply elem_of_seq in Ha.
    unfold built. rewrite length_app, length_assembled. lia. }
  split.
  - destruct (process_batches_ok_inv _ _ _ _ _ _ _ Hrun) as (_ & Hw' & ->).
    change (map _ (random_examples (record scorer_in)) ++ _) with built.
    assert (deref (heap w ++ built) (concat batches) = built) as Hd.
    { rewrite Hcat. unfold built.
      rewrite <- length_assembled with (tok := tokenizer self).
      apply deref_fresh. }
    transitivity (deref (heap w ++ built) (concat batches)); [|exact Hd].
    unfold deref. rewrite !map_map. apply map_ext_in. intros a Ha. simpl.
    apply list_elem_of_In in Ha.
    destruct (Hrange a Ha) as [Hlo Hhi].
    rewrite Hw'. simpl.
    pose proof (labels_lookup_total _ _ a
                  (apply_writes_labels
                     (concat (map (ws_of (map (resume_outcome self)
                        (launched self (heap w ++ built)
                           (explanation scorer_in)
                           (length (calls_of (trace w))) batches)))
                        (completion_order choices (seq 0 (length batches))
                           (length batches))))
                     (heap w ++ built) a)) as Hl.
    unfold labels in Hl. injection Hl as -> -> ->.
    pose proof (assembled_well_labelled (tokenizer self)
                  (test_examples scorer_in)
                  (random_examples (record scorer_in))) as Hall.
    fold built in Hall. rewrite Forall_lookup in Hall.
    destruct (lookup_lt_is_Some_2 built (a - length (heap w))) as [s Hs].
    { rewrite length_app in Hhi. lia. }
    rewrite lookup_total_app_r by done.
    rewrite (list_lookup_total_correct _ _ _ Hs).
    destruct (Hall _ _ Hs) as [Hnone _]. destruct s; simpl in *. by subst.
  - apply (process_batches_judges_all _ _ _ _ _ _ _ Hrun).
    intros a Ha. by apply Hrange.
Qed.

(** A batch size below 1 is not rejected.  With 0 the call builds its
    samples and then raises [ValueError]; with a negative size it builds
    them and returns no record at all.  No request is sent in either
    case. *)
Theorem nonpositive_batch_size self choices scorer_in w :
  let built := RecallScorer._prepare_flat self (test_examples scorer_in)
                 (random_examples (record scorer_in)) w in
  let run := RecallScorer.__call__ self choices scorer_in w in
  (batch_size self = 0 → run = (Raise ValueError, built.2))
  ∧ (batch_size self < 0 → run = (Ok [], built.2))
  ∧ length (heap built.2)
    = (length (heap w) + length (random_examples (record scorer_in))
       + length (concat (test_examples scorer_in)))%nat
  ∧ trace built.2 = trace w.
Proof.
  intros built run. unfold built, run.
  rewrite __call___run, _prepare_flat_run. simpl.
  split; [|split; [|split]].
  - intros Hz.
    destruct (_prepare_any self (test_examples scorer_in)
                (random_examples (record scorer_in)) w)
      as [[_ ->]|[[? _]|[? _]]]; [done|lia|lia].
  - intros Hneg.
    destruct (_prepare_any self (test_examples scorer_in)
                (random_examples (record scorer_in)) w)
      as [[? _]|[[_ ->]|[? _]]]; [lia| |lia].
    apply process_batches_nil.
  - rewrite length_app, length_assembled. lia.
  - done.
Qed.

(** The number of backend requests of a call is the number of samples
    divided by the batch size, rounded up, whether the call returns or
    raises. *)
Theorem call_request_count self choices scorer_in w :
  1 ≤ batch_size self →
  let samples := (length (random_examples (record scorer_in))
                  + length (concat (test_examples scorer_in)))%nat in
  length (calls_of (trace (RecallScorer.__call__ self choices scorer_in w).2))
  = (length (calls_of (trace w))
     + Z.to_nat ((Z.of_nat samples + batch_size self - 1) / batch_size self))%nat.
Proof.
  intros Hbs samples. rewrite __call___run.
  destruct (_prepare_of_flat self (test_examples scorer_in)
              (random_examples (record scorer_in)) w Hbs)
    as (flat & batches & w1 & _ & Hprep & -> & -> & _ & Hlen & _).
  rewrite Hprep.
  destruct (process_batches_trace self choices batches
              (explanation scorer_in)
              (mkWorld (heap w ++ assembled (tokenizer self)
                          (test_examples scorer_in)
                          (random_examples (record scorer_in))) (trace w)))
    as (ws & _ & _ & Hcalls).
  rewrite Hcalls. simpl. rewrite length_app, length_map, Hlen.
  by rewrite length_seq.
Qed.

(** A scoring call leaves every object that existed before it exactly as
    it was: it only adds its own samples after them. *)
Theorem call_keeps_existing_objects self choices scorer_in w :
  take (length (heap w))
       (heap (RecallScorer.__call__ self choices scorer_in w).2)
  = heap w.
Proof.
  destruct (__call___shape self choices scorer_in w)
    as (reqs & writes & -> & _ & Hrange).
  simpl. apply list_eq; intros i.
  destruct (decide (i < length (heap w))%nat) as [Hlt|Hge].
  - rewrite lookup_take_lt by done.
    rewrite apply_writes_lookup_notin.
    + by rewrite lookup_app_l.
    + intros Hin. apply Hrange in Hin. lia.
  - rewrite lookup_take_ge by lia. symmetry. apply lookup_ge_None. lia.
Qed.

End CallResults.

(** * The experiment script

    Source: [scripts/score.py].  The script visits the layers 0, 2, ..., 10,
    and for every feature record of a layer loads the explanation of the
    feature from a file, samples test examples for it and appends a
    [ScorerInput] to [scorer_inputs].  Loading and sampling sit in a [try]
    whose handler logs the exception and goes on; the names [explanation],
    [test] and [extra] are module-level variables that keep their value
    from one record to the next. *)

Module Script.

(** The exceptions of the script, by class; all of them are caught by
    [except Exception]. *)
Inductive exc : Type :=
| FileNotFoundError (path : string)
| NameError (name : string)
| OtherError (msg : string).

Inductive outcome (A : Type) : Type :=
| Returned (a : A)
| Raised (e : exc).
Arguments Returned {A} a.
Arguments Raised {A} e.

Record Feature : Type := { layer_index : Z; feature_index : Z }.

Definition explanations_dir : string := "explanations/cot".

(** The path of line 23. *)
Definition explanations_path (feature : Feature) : string :=
  explanations_dir +:+ "/layer" +:+ pretty (layer_index feature)
  +:+ "_feature" +:+ pretty (feature_index feature) +:+ ".txt".

(** [load_explanation] (lines 22-28), over the files that can be read. *)
Definition load_explanation (files : gmap string string) (feature : Feature)
    : outcome string :=
  match files !! explanations_path feature with
  | Some content => Returned content
  | None => Raised (FileNotFoundError (explanations_path feature))
  end.

Section Loop.
Context {Train Test Extra Payload : Type}.

(** A feature record: its feature, the attribute [extra] the script sets,
    and the rest. *)
Record FeatureRecord : Type := {
  feature : Feature;
  extra : option Extra;
  payload : Payload;
}.

Record ScorerInput : Type := {
  record : FeatureRecord;
  test_examples : Test;
  explanation : string;
}.

(** The collaborators: the files, the records [FeatureRecord.from_tensor]
    yields for a layer, and [sample_top_and_quantiles] on a record (its
    other arguments are constants). *)
Variable files : gmap string string.
Variable from_tensor : Z → list FeatureRecord.
Variable sample_top_and_quantiles : FeatureRecord → outcome (Train * Test * Extra).

(** The module-level names the loop assigns ([None]: not bound yet), the
    list it fills and the errors it has logged. *)
Record state : Type := mkState {
  explanation_var : option string;
  test_var : option Test;
  extra_var : option Extra;
  scorer_inputs : list ScorerInput;
  logged : list (Feature * exc);
}.

Definition initial : state := mkState None None None [] [].

(** The [try] statement (lines 47-58). *)
Definition try_sampling (record : FeatureRecord) (st : state) : state :=
  match load_explanation files (feature record) with
  | Raised e =>
      mkState (explanation_var st) (test_var st) (extra_var st)
        (scorer_inputs st) (logged st ++ [(feature record, e)])
  | Returned explanation =>
      match sample_top_and_quantiles record with
      | Raised e =>
          mkState (Some explanation) (test_var st) (extra_var st)
            (scorer_inputs st) (logged st ++ [(feature record, e)])
      | Returned (_, test, extra) =>
          mkState (Some explanation) (Some test) (Some extra)
            (scorer_inputs st) (logged st)
      end
  end.

(** Reading a module-level name. *)
Definition name {A} (id : string) (v : option A) : outcome A :=
  match v with
  | Some x => Returned x
  | None => Raised (NameError id)
  end.

(** The body of the inner loop (lines 47-68). *)
Definition body (st : state) (record : FeatureRecord) : outcome state :=
  let st := try_sampling record st in
  match name "extra" (extra_var st) with
  | Raised e => Raised e
  | Returned extra =>
      let record := {| feature := feature record; extra := Some extra;
                       payload := payload record |} in
      match name "test" (test_var st) with
      | Raised e => Raised e
      | Returned test =>
          match name "explanation" (explanation_var st) with
          | Raised e => Raised e
          | Returned explanation =>
              Returned
                (mkState (explanation_var st) (test_var st) (extra_var st)
                   (scorer_inputs st
                    ++ [{| record := record; test_examples := test;
                           explanation := explanation |}])
                   (logged st))
          end
      end
  end.

Fixpoint for_records (records : list FeatureRecord) (st : state)
    : outcome state :=
  match records with
  | [] => Returned st
  | record :: rest =>
      match body st record with
      | Returned st' => for_records rest st'
      | Raised e => Raised e
      end
  end.

Fixpoint for_layers (layers : list Z) (st : state) : outcome state :=
  match layers with
  | [] => Returned st
  | layer :: rest =>
      match for_records (from_tensor layer) st with
      | Returned st' => for_layers rest st'
      | Raised e => Raised e
      end
  end.

(** Lines 30-68: the state in which the script reaches line 70. *)
Definition collect : outcome state :=
  match py_range 0 12 2 with
  | Ok layers => for_layers layers initial
  | Raise _ => Raised (OtherError "range")
  end.

(** All the records the script visits, in the order it visits them. *)
Definition visited : list FeatureRecord :=
  concat (map from_tensor [0; 2; 4; 6; 8; 10]).

(** The exception the [try] statement catches for a record, if any. *)
Definition failure (record : FeatureRecord) : option exc :=
  match load_explanation files (feature record) with
  | Raised e => Some e
  | Returned _ =>
      match sample_top_and_quantiles record with
      | Raised e => Some e
      | Returned _ => None
      end
  end.

(** *** What the loop computes *)

(** The input built for a r whose sampling succeeded. *)
Definition own_input (r : FeatureRecord) (content : string)
    (test : Test) (ex : Extra) : ScorerInput :=
  {| record := {| feature := feature r; extra := Some ex;
                  payload := payload r |};
     test_examples := test;
     explanation := content |}.

(** The input built for a r, given the input built just before. *)
Definition next_input (prev : ScorerInput) (r : FeatureRecord)
    : ScorerInput :=
  match load_explanation files (feature r) with
  | Raised _ =>
      {| record := {| feature := feature r; extra := extra (record prev);
                      payload := payload r |};
         test_examples := test_examples prev;
         explanation := explanation prev |}
  | Returned content =>
      match sample_top_and_quantiles r with
      | Raised _ =>
          {| record := {| feature := feature r;
                          extra := extra (record prev);
                          payload := payload r |};
             test_examples := test_examples prev;
             explanation := content |}
      | Returned (_, test, ex) => own_input r content test ex
      end
  end.

Fixpoint inputs_from (prev : ScorerInput) (records : list FeatureRecord)
    : list ScorerInput :=
  match records with
  | [] => []
  | r :: rest =>
      next_input prev r :: inputs_from (next_input prev r) rest
  end.

Definition log_entry (r : FeatureRecord) : list (Feature * exc) :=
  match failure r with
  | Some e => [(feature r, e)]
  | None => []
  end.

(** The state between two records, once an input has been built. *)
Definition settled (inputs : list ScorerInput) (log : list (Feature * exc))
    (prev : ScorerInput) : state :=
  mkState (Some (explanation prev)) (Some (test_examples prev))
    (extra (record prev)) inputs log.

Lemma next_input_extra prev r :
  is_Some (extra (record prev)) →
  is_Some (extra (record (next_input prev r))).
Proof.
  intros Hprev. unfold next_input.
  destruct (load_explanation files (feature r)); [|done].
  destruct (sample_top_and_quantiles r) as [[[train test] ex]|]; [|done].
  simpl. eauto.
Qed.

Lemma body_settled inputs log prev r :
  is_Some (extra (record prev)) →
  body (settled inputs log prev) r
  = Returned (settled (inputs ++ [next_input prev r])
                (log ++ log_entry r) (next_input prev r)).
Proof.
  intros [x Hx].
  unfold body, try_sampling, next_input, log_entry, failure, settled.
  destruct (load_explanation files (feature r)) as [content|e]; simpl.
  - destruct (sample_top_and_quantiles r) as [[[train test] ex]|e]; simpl.
    + by rewrite app_nil_r.
    + by rewrite Hx.
  - by rewrite Hx.
Qed.

Lemma for_records_settled records inputs log prev :
  is_Some (extra (record prev)) →
  for_records records (settled inputs log prev)
  = Returned (settled (inputs ++ inputs_from prev records)
                (log ++ concat (map log_entry records))
                (List.last (inputs_from prev records) prev)).
Proof.
  revert inputs log prev; induction records as [|r records IH];
    intros inputs log prev Hprev.
  - simpl. by rewrite !app_nil_r.
  - cbn [for_records]. rewrite body_settled by done.
    rewrite IH by (by apply next_input_extra).
    cbn [inputs_from map concat]. rewrite <- !app_assoc. simpl.
    do 2 f_equal.
    destruct (inputs_from (next_input prev r) records) as [|x l]; [done|].
    clear. revert x. induction l as [|y l IHl]; intros x; [done|].
    change (List.last (y :: l) (next_input prev r) = List.last (y :: l) prev).
    apply IHl.
Qed.

Lemma for_records_app records1 records2 st :
  for_records (records1 ++ records2) st
  = match for_records records1 st with
    | Returned st' => for_records records2 st'
    | Raised e => Raised e
    end.
Proof.
  revert st; induction records1 as [|r records1 IH]; intros st; simpl; [done|].
  destruct (body st r); [apply IH|done].
Qed.

Lemma for_layers_concat layers st :
  for_layers layers st = for_records (concat (map from_tensor layers)) st.
Proof.
  revert st; induction layers as [|layer layers IH]; intros st; simpl; [done|].
  rewrite for_records_app. destruct (for_records (from_tensor layer) st); auto.
Qed.

Lemma body_initial r :
  body initial r
  = match load_explanation files (feature r),
          sample_top_and_quantiles r with
    | Returned content, Returned (_, test, ex) =>
        Returned (settled [own_input r content test ex] []
                    (own_input r content test ex))
    | _, _ => Raised (NameError "extra")
    end.
Proof.
  unfold body, try_sampling.
  destruct (load_explanation files (feature r)) as [content|e]; [|done].
  by destruct (sample_top_and_quantiles r) as [[[train test] ex]|e].
Qed.

(** The whole loop in one equation. *)
Lemma collect_run :
  collect
  = match visited with
    | [] => Returned initial
    | first :: rest =>
        match load_explanation files (feature first),
              sample_top_and_quantiles first with
        | Returned content, Returned (_, test, ex) =>
            let inp := own_input first content test ex in
            Returned (settled (inp :: inputs_from inp rest)
                        (concat (map log_entry rest))
                        (List.last (inputs_from inp rest) inp))
        | _, _ => Raised (NameError "extra")
        end
    end.
Proof.
  unfold collect, visited.
  change (py_range 0 12 2) with (Ok [0; 2; 4; 6; 8; 10]). cbv beta iota.
  rewrite for_layers_concat.
  destruct (concat (map from_tensor [0; 2; 4; 6; 8; 10])) as [|first rest];
    [done|].
  cbn [for_records]. rewrite body_initial.
  destruct (load_explanation files (feature first)) as [content|e]; [|done].
  destruct (sample_top_and_quantiles first) as [[[train test] ex]|e]; [|done].
  rewrite for_records_settled by (simpl; eauto). done.
Qed.

Lemma inputs_from_features prev records :
  map (λ inp, feature (record inp)) (inputs_from prev records)
  = map feature records.
Proof.
  revert prev; induction records as [|r records IH]; intros prev; [done|].
  cbn [inputs_from map]. rewrite IH. f_equal.
  unfold next_input.
  destruct (load_explanation files (feature r)); [|done].
  by destruct (sample_top_and_quantiles r) as [[[train test] ex]|].
Qed.

Lemma inputs_from_lookup prev records i r :
  records !! i = Some r →
  ∃ before,
    (prev :: inputs_from prev records) !! i = Some before
    ∧ inputs_from prev records !! i = Some (next_input before r).
Proof.
  revert prev i; induction records as [|r0 records IH]; intros prev i Hi;
    [done|].
  destruct i as [|i]; simpl in *.
  - injection Hi as ->. by exists prev.
  - apply (IH (next_input prev r0)) in Hi. exact Hi.
Qed.

Lemma failure_None r :
  failure r = None →
  ∃ content train test ex,
    files !! explanations_path (feature r) = Some content
    ∧ sample_top_and_quantiles r = Returned (train, test, ex).
Proof.
  unfold failure, load_explanation.
  destruct (files !! explanations_path (feature r)) as [content|]; [|done].
  destruct (sample_top_and_quantiles r) as [[[train test] ex]|]; [|done].
  intros _. by exists content, train, test, ex.
Qed.

Lemma log_entries records :
  concat (map log_entry records)
  = omap (λ r, pair (feature r) <$> failure r) records.
Proof.
  induction records as [|r records IH]; [done|].
  cbn [map concat]. rewrite IH. unfold log_entry. simpl.
  by destruct (failure r).
Qed.

(** When loading and sampling succeed for every record, the script
    builds one input per record, in the order of the visit, each from the
    record's own explanation file and its own sample, and logs nothing. *)
Theorem collect_all_succeed :
  (∀ r, r ∈ visited → failure r = None) →
  ∃ st,
    collect = Returned st
    ∧ logged st = []
    ∧ Forall2
        (λ r inp,
           ∃ content train test ex,
             files !! explanations_path (feature r) = Some content
             ∧ sample_top_and_quantiles r = Returned (train, test, ex)
             ∧ inp = {| record := {| feature := feature r; extra := Some ex;
                                     payload := payload r |};
                        test_examples := test;
                        explanation := content |})
        visited (scorer_inputs st).
Proof.
  intros Hall. rewrite collect_run.
  destruct visited as [|first rest]; [exists initial; by repeat constructor|].
  destruct (failure_None first (Hall first ltac:(left)))
    as (content & train & test & ex & Hfile & Hsample).
  unfold load_explanation at 1. rewrite Hfile, Hsample. cbv zeta.
  eexists. split; [done|]. simpl. split.
  - rewrite log_entries. apply length_zero_iff_nil.
    assert (∀ r, r ∈ rest → failure r = None) as Hrest
      by (intros r Hr; apply Hall; by right).
    clear -Hrest. induction rest as [|r rest IH]; [done|]. simpl.
    rewrite (Hrest r) by left. simpl. apply IH. intros r' Hr'. apply Hrest.
    by right.
  - constructor; [by exists content, train, test, ex|].
    assert (∀ r, r ∈ rest → failure r = None) as Hrest
      by (intros r Hr; apply Hall; by right).
    generalize (own_input first content test ex). clear -Hrest.
    induction rest as [|r rest IH]; intros prev; [constructor|].
    cbn [inputs_from].
    destruct (failure_None r (Hrest r ltac:(left)))
      as (content & train & test & ex & Hfile & Hsample).
    assert (next_input prev r = own_input r content test ex) as ->.
    { unfold next_input, load_explanation. by rewrite Hfile, Hsample. }
    constructor; [by exists content, train, test, ex|].
    apply IH. intros r' Hr'. apply Hrest. by right.
Qed.

(** The script never skips a record: whenever the loop finishes, it has
    appended one input per record visited, for the records whose loading
    or sampling failed as well, and it has logged one entry per failure. *)
Theorem collect_never_skips st :
  collect = Returned st →
  map (λ inp, feature (record inp)) (scorer_inputs st) = map feature visited
  ∧ logged st = omap (λ r, pair (feature r) <$> failure r) visited.
Proof.
  rewrite collect_run.
  destruct visited as [|first rest]; [by intros [= <-]|].
  destruct (load_explanation files (feature first)) as [content|e] eqn:Hl;
    [|done].
  destruct (sample_top_and_quantiles first) as [[[train test] ex]|e] eqn:Hs;
    [|done].
  intros [= <-]. simpl scorer_inputs. simpl logged.
  assert (failure first = None) as Hf by (unfold failure; by rewrite Hl, Hs).
  split.
  - cbn [map]. f_equal. apply inputs_from_features.
  - rewrite <- (log_entries (first :: rest)). cbn [map concat].
    change (log_entry first) with
      (match failure first with
       | Some e => [(feature first, e)]
       | None => []
       end).
    by rewrite Hf.
Qed.

(** A record whose loading or sampling fails is scored on stale data: its
    input carries the test examples and the [extra] of the input built
    just before it, and the previous explanation too unless its own file
    could be read. *)
Theorem failed_record_reuses_previous st i r e :
  collect = Returned st →
  visited !! S i = Some r →
  failure r = Some e →
  ∃ prev inp,
    scorer_inputs st !! i = Some prev
    ∧ scorer_inputs st !! S i = Some inp
    ∧ feature (record inp) = feature r
    ∧ test_examples inp = test_examples prev
    ∧ extra (record inp) = extra (record prev)
    ∧ explanation inp
      = match load_explanation files (feature r) with
        | Returned content => content
        | Raised _ => explanation prev
        end.
Proof.
  rewrite collect_run.
  destruct visited as [|first rest]; [done|].
  destruct (load_explanation files (feature first)) as [content|e0]; [|done].
  destruct (sample_top_and_quantiles first) as [[[train test] ex]|e0]; [|done].
  intros [= <-] Hr Hfail. simpl in Hr.
  destruct (inputs_from_lookup (own_input first content test ex) rest i r Hr)
    as (before & Hbefore & Hinp).
  exists before, (next_input before r). simpl.
  split; [done|]. split; [done|].
  unfold failure in Hfail. unfold next_input.
  destruct (load_explanation files (feature r)) as [c|e1]; [|done].
  by destruct (sample_top_and_quantiles r) as [[[train' test'] ex']|e1].
Qed.

(** The loop can only be left by an exception in one way: loading or
    sampling fails for the very first record, whose handler leaves [extra]
    unbound, and line 60 raises [NameError]. *)
Theorem collect_raises_iff e :
  collect = Raised e
  ↔ e = NameError "extra"
    ∧ ∃ first rest, visited = first :: rest ∧ is_Some (failure first).
Proof.
  rewrite collect_run. destruct visited as [|first rest].
  - split; [done|]. by intros [_ (? & ? & ? & _)].
  - destruct (load_explanation files (feature first)) as [content|e0] eqn:Hl.
    + destruct (sample_top_and_quantiles first) as [[[train test] ex]|e0]
        eqn:Hs.
      * split; [done|]. intros [_ (f0 & r0 & [= <- <-] & [x Hx])].
        unfold failure in Hx. by rewrite Hl, Hs in Hx.
      * split; [|by intros [-> _]]. intros [= <-]. split; [done|].
        exists first, rest. split; [done|]. unfold failure.
        rewrite Hl, Hs. eauto.
    + split; [|by intros [-> _]]. intros [= <-]. split; [done|].
      exists first, rest. split; [done|]. unfold failure. rewrite Hl. eauto.
Qed.

End Loop.

(** *** Explanation files *)

Fixpoint has_char (c : ascii) (s : string) : bool :=
  match s with
  | EmptyString => false
  | String c' rest => if decide (c = c') then true else has_char c rest
  end.

(** The characters ['0'] to ['9'], of which [str] of an integer is made. *)
Definition is_digit (c : ascii) : bool :=
  ((48 <=? nat_of_ascii c) && (nat_of_ascii c <=? 57))%nat.

Lemma is_digit_pretty_N_char d : is_digit (pretty_N_char d) = true.
Proof. unfold pretty_N_char. by repeat case_match. Qed.

Lemma has_char_pretty_N_go c x s :
  is_digit c = false → has_char c s = false →
  has_char c (pretty_N_go x s) = false.
Proof.
  intros Hc. revert s. induction (N.lt_wf_0 x) as [x _ IH]; intros s Hs.
  assert (x = 0 ∨ 0 < x)%N as [->|Hpos] by lia.
  - by rewrite pretty_N_go_0.
  - rewrite pretty_N_go_step by done. apply IH; [by apply N.div_lt|].
    simpl. case_decide as Heq; [|done].
    rewrite Heq, is_digit_pretty_N_char in Hc. done.
Qed.

Lemma has_char_pretty_Z c (z : Z) :
  is_digit c = false → c ≠ "-"%char → has_char c (pretty z) = false.
Proof.
  intros Hc Hdash.
  assert (∀ p : positive, has_char c (pretty p) = false) as Hpos.
  { intros p. unfold pretty, pretty_positive, pretty, pretty_N.
    case_decide; [done|]. by apply has_char_pretty_N_go. }
  destruct z as [|p|p]; unfold pretty, pretty_Z.
  - simpl. case_decide as Heq; [by subst|done].
  - apply Hpos.
  - change ("-" +:+ pretty p) with (String "-" (pretty p)). simpl.
    case_decide; [done|]. apply Hpos.
Qed.

Lemma split_at_char c s1 t1 s2 t2 :
  has_char c s1 = false → has_char c s2 = false →
  s1 +:+ String c t1 = s2 +:+ String c t2 → s1 = s2 ∧ t1 = t2.
Proof.
  revert s2; induction s1 as [|a s1 IH]; intros [|b s2] H1 H2 Heq; simpl in *.
  - by injection Heq as ->.
  - injection Heq as <- _. by rewrite decide_True in H2.
  - injection Heq as -> _. by rewrite decide_True in H1.
  - injection Heq as -> Heq.
    case_decide; [done|]. destruct (IH s2 H1 H2 Heq) as [-> ->]. done.
Qed.

(** Two features share an explanation file only if they are the same
    feature of the same layer. *)
Global Instance explanations_path_inj : Inj (=) (=) explanations_path.
Proof.
  intros [l1 f1] [l2 f2] Heq. unfold explanations_path in Heq. simpl in Heq.
  apply (inj (String.app explanations_dir)) in Heq.
  apply (inj (String.app "/layer")) in Heq.
  change ("_feature" +:+ ?x) with (String "_" ("feature" +:+ x)) in Heq.
  apply split_at_char in Heq as [Hl Heq];
    [|by apply has_char_pretty_Z..].
  apply (inj (String.app "feature")) in Heq.
  change (".txt" +:+ ?x) with (String "." ("txt" +:+ x)) in Heq.
  change (pretty f1 +:+ ".txt") with (pretty f1 +:+ String "." "txt") in Heq.
  change (pretty f2 +:+ ".txt") with (pretty f2 +:+ String "." "txt") in Heq.
  apply split_at_char in Heq as [Hf _];
    [|by apply has_char_pretty_Z..].
  apply (inj pretty) in Hl. apply (inj pretty) in Hf. by subst.
Qed.

(** Every feature has an explanation file of its own: two features of
    different layer or index never share a path, so what [load_explanation]
    gives for a feature depends on the file at that feature's path alone,
    and the file of one feature is never read for another. *)
Theorem explanation_files_distinct :
  (∀ feature other,
     explanations_path feature = explanations_path other → feature = other)
  ∧ (∀ files1 files2 feature other,
       (∀ path, path ≠ explanations_path feature →
          files1 !! path = files2 !! path) →
       other ≠ feature →
       load_explanation files1 other = load_explanation files2 other).
Proof.
  split.
  - intros feature other Heq. by apply (inj explanations_path).
  - intros files1 files2 feature other Hsame Hne.
    unfold load_explanation. rewrite Hsame; [done|].
    intros Heq. by apply (inj explanations_path) in Heq.
Qed.

End Script.

(** * Concrete runs *)

(** A stand-in for the two imports, used by the concrete runs below only:
    the response model for [n] samples is kept as the list of its field
    names [example_0] to [example_(n-1)], and the template puts the
    explanation above the examples. *)
#[global] Instance demo_imports : Imports := {|
  Schema := list string;
  clean_prompt := λ explanation examples batched,
    explanation +:+ RecallScorer.newline +:+ examples;
  create_response_model := λ n, map RecallScorer.example_key (seq 0 n);
|}.

(** The decimal digits of Unicode 14.0, the database of CPython 3.11: 66
    runs of ten consecutive code points, from the digit zero of a script to
    its digit nine (660 characters).  [decimal_zeros] lists the zeros: 48
    is ['0'], 1632 the Arabic-Indic zero (U+0660), 65296 the fullwidth zero
    (U+FF10). *)
Definition decimal_zeros : list N :=
  [48; 1632; 1776; 1984; 2406; 2534; 2662; 2790; 2918; 3046; 3174; 3302;
   3430; 3558; 3664; 3792; 3872; 4160; 4240; 6112; 6160; 6470; 6608; 6784;
   6800; 6992; 7088; 7232; 7248; 42528; 43216; 43264; 43472; 43504; 43600;
   44016; 65296; 66720; 68912; 69734; 69872; 69942; 70096; 70384; 70736;
   70864; 71248; 71360; 71472; 71904; 72016; 72784; 73040; 73120; 92768;
   92864; 93008; 120782; 120792; 120802; 120812; 120822; 123200; 123632;
   125264; 130032]%N.

Definition unicode_decimal (c : N) : option Z :=
  (λ zero, Z.of_N (c - zero))
    <$> List.find (λ zero, (zero <=? c) && (c <? zero + 10))%N decimal_zeros.

Lemma unicode_decimal_ascii (d : N) :
  (d < 10)%N → unicode_decimal (48 + d) = Some (Z.of_N d).
Proof.
  intros Hd. destruct d as [|p]; [reflexivity|].
  do 4 (destruct p as [p|p|]; try lia; try reflexivity).
Qed.

#[global] Instance unicode_14 : Unicode :=
  {| decimal := unicode_decimal; decimal_ascii := unicode_decimal_ascii |}.

(** [int] on single characters: ["7"], a blank, the fullwidth digit one
    (U+FF11), the Arabic-Indic digit one (U+0661), the superscript two
    (U+00B2, a digit but no decimal digit) and the letter ["l"]. *)
Example py_int_char_values :
  map py_int_char [55; 32; 65297; 1633; 178; 108]%N
  = [Ok 7; Raise ValueError; Ok 1; Ok 1; Raise ValueError; Raise ValueError].
Proof. reflexivity. Qed.

(** A tokenizer that writes the token ids out, one after the other. *)
Definition demo_tokenizer : Tokenizer :=
  {| decode := λ toks, join " " (map pretty toks) |}.

Definition demo_scorer (answers : nat → Request → result Response)
    (size : Z) : RecallScorer :=
  {| client := {| generate := answers |};
     tokenizer := demo_tokenizer;
     echo := false;
     temperature := 0%float;
     max_tokens := 300;
     batch_size := size |}.

Definition demo_input (activating : list (list Example))
    (random : list Example) : ScorerInput :=
  {| record := {| random_examples := random |};
     test_examples := activating;
     explanation := "mentions of a colour" |}.

Definition empty_world : world := mkWorld [] [].

(** Three samples already built, none judged yet. *)
Definition three_samples : world :=
  mkWorld [mkSample "the sky" (-1) false None;
           mkSample "a red door" 1 true None;
           mkSample "green tea" 2 true None] [].

(** Scenario B: [{example_0: 0, example_1: 1, example_2: 1}]. *)
Definition answer_B : gmap string jvalue :=
  <["example_0" := JInt 0]> (<["example_1" := JInt 1]>
    (<["example_2" := JInt 1]> ∅)).

(** Scenario C: the field [example_1] is missing. *)
Definition answer_C : gmap string jvalue :=
  <["example_0" := JInt 1]> ∅.

Definition answer_pair : gmap string jvalue :=
  <["example_0" := JInt 1]> (<["example_1" := JInt 0]> ∅).

Definition ex (toks : list Z) : Example := {| tokens := toks |}.

Lemma query_batched_scenario_B :
  (RecallScorer.query (demo_scorer (λ _ _, Ok (RStruct answer_B)) 3)
     [0; 1; 2]%nat "mentions of a colour" three_samples).1
  = Ok [0; 1; 2]%nat
  ∧ map (λ a : nat,
           predicted
             (heap (RecallScorer.query
                      (demo_scorer (λ _ _, Ok (RStruct answer_B)) 3)
                      [0; 1; 2]%nat "mentions of a colour" three_samples).2
              !!! a))
        [0; 1; 2]%nat
    = [Some false; Some true; Some true].
Proof.
  assert (NoDup [0; 1; 2]%nat) as Hnd by (apply (NoDup_seq 0 3)).
  destruct (query_batched (demo_scorer (λ _ _, Ok (RStruct answer_B)) 3)
              [0; 1; 2]%nat "mentions of a colour" three_samples answer_B)
    as (Hok & _ & _ & Hpred).
  - simpl. lia.
  - intros a Ha. apply (elem_of_seq 0 3) in Ha. simpl. lia.
  - intros p w1 _. reflexivity.
  - intros [|[|[|i]]] Hi; try (by vm_compute; eauto). simpl in Hi. lia.
  - split; [exact Hok|]. specialize (Hpred Hnd). simpl map.
    rewrite (Hpred 0%nat 0%nat (JInt 0) eq_refl eq_refl).
    rewrite (Hpred 1%nat 1%nat (JInt 1) eq_refl eq_refl).
    rewrite (Hpred 2%nat 2%nat (JInt 1) eq_refl eq_refl).
    reflexivity.
Defined.

Lemma single_sample_scenario_A :
  (RecallScorer.__call__
     (demo_scorer (λ _ _, Ok (RText (codes "Answer: 1"))) 1) []
     (demo_input [[ex [7; 8]]] []) empty_world).1
  = Ok [mkScored "7 8" 1 true (Some true)].
Proof.
  exact (proj2 (single_sample_mode
                  (demo_scorer (λ _ _, Ok (RText (codes "Answer: 1"))) 1))
           [] (demo_input [[ex [7; 8]]] []) empty_world (ex [7; 8])
           (codes "Answer: 1") eq_refl eq_refl eq_refl (λ _, eq_refl)
           eq_refl).
Defined.

(** An answer that ends in the fullwidth digit one, U+FF11. *)
Definition answer_fullwidth : list N := codes "Answer: " ++ [65297%N].

(** C2 fails as stated: the last character of this answer is not ["1"],
    and [query] sets [predicted] to true all the same, since [int] reads
    the fullwidth digit as 1. *)
Lemma single_sample_fullwidth_one :
  last_char answer_fullwidth = Some 65297%N
  ∧ last_char answer_fullwidth ≠ last_char (codes "1")
  ∧ (RecallScorer.query
       (demo_scorer (λ _ _, Ok (RText answer_fullwidth)) 1)
       [1%nat] "mentions of a colour" three_samples).1
    = Ok [1%nat]
  ∧ predicted
      (heap (RecallScorer.query
               (demo_scorer (λ _ _, Ok (RText answer_fullwidth)) 1)
               [1%nat] "mentions of a colour" three_samples).2
       !!! 1%nat)
    = Some true.
Proof.
  split; [reflexivity|]. split; [discriminate|].
  split; vm_compute; reflexivity.
Qed.

Lemma missing_field_scenario_C :
  (RecallScorer.query (demo_scorer (λ _ _, Ok (RStruct answer_C)) 3)
     [0; 1; 2]%nat "mentions of a colour" three_samples).1
  = Raise (KeyError "example_1")
  ∧ heap (RecallScorer.query (demo_scorer (λ _ _, Ok (RStruct answer_C)) 3)
            [0; 1; 2]%nat "mentions of a colour" three_samples).2 !! 1%nat
    = Some (mkSample "a red door" 1 true None).
Proof.
  destruct (proj1 (missing_field_raises
                     (demo_scorer (λ _ _, Ok (RStruct answer_C)) 3))
              [0%nat] 1%nat [2%nat] "mentions of a colour" three_samples
              answer_C)
    as (Hraise & _ & Hsame).
  - simpl. lia.
  - intros p w1 _. reflexivity.
  - intros [|i] Hi; [by vm_compute; eauto|]. simpl in Hi. lia.
  - reflexivity.
  - split; [exact Hraise|].
    change ([0; 1; 2]%nat) with ([0%nat] ++ [1; 2]%nat).
    rewrite (Hsame 1%nat); [reflexivity|].
    intros Hin. apply elem_of_cons in Hin as [Hin|Hin]; [discriminate|].
    by apply elem_of_nil in Hin.
Defined.

(** The backend answers the first request well and the second one without
    the field [example_1]. *)
Definition second_answer_malformed (k : nat) (_ : Request) : result Response :=
  if (k =? 0)%nat then Ok (RStruct answer_pair) else Ok (RStruct answer_C).

(** C3 fails as stated: with two batches of two samples, the second
    answered without [example_1], the scoring call as a whole ends with the
    [KeyError], whichever batch completes first; the caller gets no record,
    not even for the batch that was answered well. *)
Lemma missing_field_fails_whole_call :
  (RecallScorer.__call__ (demo_scorer second_answer_malformed 2) []
     (demo_input [[ex [1]; ex [2]]] [ex [3]; ex [4]]) empty_world).1
  = Raise (KeyError "example_1")
  ∧ (RecallScorer.__call__ (demo_scorer second_answer_malformed 2) [1%nat]
       (demo_input [[ex [1]; ex [2]]] [ex [3]; ex [4]]) empty_world).1
    = Raise (KeyError "example_1").
Proof. split; vm_compute; reflexivity. Qed.

Lemma assembly_complete_demo :
  ∃ batches w1,
    RecallScorer._prepare (demo_scorer (λ _ _, Ok (RText (codes "1"))) 2)
      [[ex [1]; ex [2]]; [ex [5]]] [ex [3]; ex [4]] empty_world
    = (Ok batches, w1)
    ∧ length (concat batches) = 5%nat.
Proof.
  destruct (assembly_complete
              (demo_scorer (λ _ _, Ok (RText (codes "1"))) 2)
              [[ex [1]; ex [2]]; [ex [5]]] [ex [3]; ex [4]] empty_world)
    as (samples & _ & Hlen & _ & _ & _ & Hbatches).
  destruct Hbatches as (batches & Hprep & Hcat); [simpl; lia|].
  exists batches. eexists. split; [exact Hprep|].
  rewrite Hcat, Hlen. reflexivity.
Defined.

Lemma label_correctness_demo :
  ∃ batches w1,
    RecallScorer._prepare (demo_scorer (λ _ _, Ok (RText (codes "1"))) 2)
      [[ex [1]]; [ex [5]]] [ex [3]] empty_world
    = (Ok batches, w1)
    ∧ deref (heap w1) (concat batches)
      = [mkSample "3" (-1) false None; mkSample "1" 1 true None;
         mkSample "5" 2 true None].
Proof.
  destruct (proj2 (label_correctness
                     (demo_scorer (λ _ _, Ok (RText (codes "1"))) 2)
                     [[ex [1]]; [ex [5]]] [ex [3]] empty_world))
    as (batches & w1 & Hprep & Hlabels); [simpl; lia|].
  exists batches, w1. split; [exact Hprep|]. rewrite Hlabels. reflexivity.
Defined.

Lemma batch_partition_demo :
  ∃ batches w1,
    RecallScorer._prepare (demo_scorer (λ _ _, Ok (RText (codes "1"))) 2)
      [[ex [1]; ex [2]]; [ex [5]]] [ex [3]; ex [4]] empty_world
    = (Ok batches, w1)
    ∧ concat batches = [0; 1; 2; 3; 4]%nat
    ∧ ∀ k batch, batches !! k = Some batch → (1 ≤ length batch ≤ 2)%nat.
Proof.
  destruct (batch_partition (demo_scorer (λ _ _, Ok (RText (codes "1"))) 2)
              [[ex [1]; ex [2]]; [ex [5]]] [ex [3]; ex [4]] empty_world)
    as (samples & batches & w1 & Hflat & Hprep & Hcat & Hchunks);
    [simpl; lia|].
  exists batches, w1. split; [exact Hprep|]. split.
  - rewrite Hcat. rewrite _prepare_flat_run in Hflat.
    injection Hflat as <- _. reflexivity.
  - intros k batch Hk. exact (proj1 (proj2 (Hchunks k batch Hk))).
Defined.

(** The backend answers the first request with a mapping and the second
    with free text. *)
Definition mixed_answers (k : nat) (_ : Request) : result Response :=
  if (k =? 0)%nat then Ok (RStruct answer_pair)
  else Ok (RText (codes "So: 1")).

Lemma process_batches_flatten_demo :
  ∃ out w',
    RecallScorer.process_batches (demo_scorer mixed_answers 2) [1%nat]
      [[0; 1]; [2]]%nat "mentions of a colour" three_samples
    = (Ok out, w')
    ∧ slice_by [2; 1]%nat out
      = [[mkScored "the sky" (-1) false (Some true);
          mkScored "a red door" 1 true (Some false)];
         [mkScored "green tea" 2 true (Some true)]]
    ∧ ∀ choices,
        (RecallScorer.process_batches (demo_scorer mixed_answers 2) choices
           [[0; 1]; [2]]%nat "mentions of a colour" three_samples).1
        = Ok out.
Proof.
  destruct (RecallScorer.process_batches (demo_scorer mixed_answers 2) [1%nat]
              [[0; 1]; [2]]%nat "mentions of a colour" three_samples)
    as [res w'] eqn:Hrun.
  assert (res = Ok [mkScored "the sky" (-1) false (Some true);
                    mkScored "a red door" 1 true (Some false);
                    mkScored "green tea" 2 true (Some true)]
          ∧ heap w' = [mkSample "the sky" (-1) false (Some true);
                       mkSample "a red door" 1 true (Some false);
                       mkSample "green tea" 2 true (Some true)])
    as [-> Hheap].
  { vm_compute in Hrun. injection Hrun as <- <-. split; reflexivity. }
  destruct (process_batches_flatten _ _ _ _ _ _ _ Hrun)
    as (_ & Hslices & Hindep).
  eexists _, w'. split; [reflexivity|]. split.
  - etrans; [exact Hslices|]. simpl. unfold deref. simpl.
    rewrite Hheap. reflexivity.
  - intros choices.
    destruct (proj1 (Hindep (NoDup_seq 0 3)) choices) as (w'' & -> & _).
    reflexivity.
Defined.

Lemma empty_input_scenario_D :
  RecallScorer.__call__ (demo_scorer (λ _ _, Ok (RText (codes "1"))) 10) []
    (demo_input [] []) empty_world
  = (Ok [], empty_world)
  ∧ calls_of
      (trace (RecallScorer.__call__
                (demo_scorer (λ _ _, Ok (RText (codes "1"))) 10)
                [] (demo_input [] []) empty_world).2)
    = [].
Proof.
  apply (empty_input (demo_scorer (λ _ _, Ok (RText (codes "1"))) 10) []
           (demo_input [] []) empty_world);
    [discriminate|reflexivity|reflexivity].
Defined.


Lemma query_single_unparsable_demo :
  ((RecallScorer.query
      (demo_scorer (λ _ _, Ok (RText (codes "I cannot tell"))) 1)
      [0%nat] "mentions of a colour" three_samples).1
   = Raise ValueError
   ∧ heap (RecallScorer.query
             (demo_scorer (λ _ _, Ok (RText (codes "I cannot tell"))) 1)
             [0%nat] "mentions of a colour" three_samples).2
     = heap three_samples)
  ∧ (RecallScorer.query (demo_scorer (λ _ _, Ok (RText [])) 1)
       [0%nat] "mentions of a colour" three_samples).1
    = Raise IndexError
  ∧ predicted
      (heap (RecallScorer.query
               (demo_scorer (λ _ _, Ok (RText (codes "Answer: 7"))) 1)
               [0%nat] "mentions of a colour" three_samples).2
       !!! 0%nat)
    = Some false.
Proof.
  split; [|split].
  - destruct (query_single_unparsable
                (demo_scorer (λ _ _, Ok (RText (codes "I cannot tell"))) 1)
                0%nat "mentions of a colour" three_samples
                (codes "I cannot tell") (λ _ _ _, eq_refl))
      as (_ & Hnondigit & _).
    destruct (Hnondigit 108%N eq_refl eq_refl) as (Hraise & Hheap & _).
    split; assumption.
  - destruct (query_single_unparsable
                (demo_scorer (λ _ _, Ok (RText [])) 1)
                0%nat "mentions of a colour" three_samples
                [] (λ _ _ _, eq_refl))
      as (Hempty & _).
    exact (proj1 (Hempty eq_refl)).
  - destruct (query_single_unparsable
                (demo_scorer (λ _ _, Ok (RText (codes "Answer: 7"))) 1)
                0%nat "mentions of a colour" three_samples
                (codes "Answer: 7") (λ _ _ _, eq_refl))
      as (_ & _ & Hdigit).
    destruct (Hdigit 55%N 7 eq_refl eq_refl) as [_ Hpred]; [simpl; lia|].
    exact Hpred.
Defined.

(** An answer that ends in the Arabic-Indic digit one, U+0661. *)
Definition answer_arabic_indic : list N := codes "Answer: " ++ [1633%N].

(** C10 fails as stated: the last character of this answer is none of
    ["0"] to ["9"], and it is a decimal digit other than the character
    ["1"]; yet [query] raises nothing, and it sets [predicted] to true, not
    to false. *)
Lemma query_single_arabic_indic_one :
  last_char answer_arabic_indic = Some 1633%N
  ∧ decimal 1633 = Some 1
  ∧ (RecallScorer.query
       (demo_scorer (λ _ _, Ok (RText answer_arabic_indic)) 1)
       [0%nat] "mentions of a colour" three_samples).1
    = Ok [0%nat]
  ∧ predicted
      (heap (RecallScorer.query
               (demo_scorer (λ _ _, Ok (RText answer_arabic_indic)) 1)
               [0%nat] "mentions of a colour" three_samples).2
       !!! 0%nat)
    = Some true.
Proof.
  split; [reflexivity|]. split; [reflexivity|].
  split; vm_compute; reflexivity.
Qed.

(** * Concrete runs of the further properties *)

(** The three samples again, with other quantiles, ground truths and
    earlier predictions. *)
Definition three_samples_judged : world :=
  mkWorld [mkSample "the sky" 3 true (Some true);
           mkSample "a red door" (-1) false (Some false);
           mkSample "green tea" 2 true None] [].

Lemma query_reads_only_text_demo :
  (RecallScorer.query (demo_scorer (λ _ _, Ok (RStruct answer_B)) 3)
     [0; 1; 2]%nat "mentions of a colour" three_samples).1
  = (RecallScorer.query (demo_scorer (λ _ _, Ok (RStruct answer_B)) 3)
       [0; 1; 2]%nat "mentions of a colour" three_samples_judged).1.
Proof.
  destruct (query_reads_only_text
              (demo_scorer (λ _ _, Ok (RStruct answer_B)) 3)
              [0; 1; 2]%nat "mentions of a colour"
              three_samples three_samples_judged)
    as [Hsame _].
  - intros a Ha.
    repeat (apply elem_of_cons in Ha as [->|Ha]; [reflexivity|]).
    by apply elem_of_nil in Ha.
  - reflexivity.
  - exact Hsame.
Defined.

(** A well-formed answer to a request about no sample at all. *)
Lemma query_empty_batch_demo :
  (RecallScorer.query
     (demo_scorer (λ _ _, Ok (RText (codes "Answer: 1"))) 1)
     [] "mentions of a colour" three_samples).1
  = Raise IndexError.
Proof.
  exact (proj1 (query_empty_batch
                  (demo_scorer (λ _ _, Ok (RText (codes "Answer: 1"))) 1)
                  "mentions of a colour" three_samples)).
Defined.

Lemma query_backend_error_demo :
  (RecallScorer.query (demo_scorer (λ _ _, Raise (BackendError "timeout")) 3)
     [0; 1; 2]%nat "mentions of a colour" three_samples).1
  = Raise (BackendError "timeout")
  ∧ heap (RecallScorer.query
            (demo_scorer (λ _ _, Raise (BackendError "timeout")) 3)
            [0; 1; 2]%nat "mentions of a colour" three_samples).2
    = heap three_samples.
Proof.
  destruct (query_backend_error
              (demo_scorer (λ _ _, Raise (BackendError "timeout")) 3)
              [0; 1; 2]%nat "mentions of a colour" three_samples
              (BackendError "timeout"))
    as (Hraise & Hheap & _).
  - intros p w1 _. reflexivity.
  - split; assumption.
Defined.

Lemma query_wrong_kind_of_answer_demo :
  (RecallScorer.query (demo_scorer (λ _ _, Ok (RText (codes "0 1 1"))) 3)
     [0; 1; 2]%nat "mentions of a colour" three_samples).1
  = Raise TypeError
  ∧ (RecallScorer.query (demo_scorer (λ _ _, Ok (RStruct answer_B)) 1)
       [0%nat] "mentions of a colour" three_samples).1
    = Raise (KeyError "-1").
Proof.
  split.
  - destruct (proj1 (query_wrong_kind_of_answer
                       (demo_scorer (λ _ _, Ok (RText (codes "0 1 1"))) 3)
                       "mentions of a colour" three_samples)
                [0; 1; 2]%nat (codes "0 1 1"))
      as (Hraise & _).
    + simpl. lia.
    + intros p w1 _. reflexivity.
    + exact Hraise.
  - destruct (proj2 (query_wrong_kind_of_answer
                       (demo_scorer (λ _ _, Ok (RStruct answer_B)) 1)
                       "mentions of a colour" three_samples)
                [0%nat] answer_B)
      as (Hraise & _).
    + simpl. lia.
    + intros p w1 _. reflexivity.
    + exact Hraise.
Defined.

(** The sample 0 sits at the positions 0 and 2 of the batch; the answer
    says 0 for position 0 and 1 for position 2. *)
Lemma shared_sample_demo :
  predicted
    (heap (RecallScorer.query (demo_scorer (λ _ _, Ok (RStruct answer_B)) 3)
             [0; 1; 0]%nat "mentions of a colour" three_samples).2
     !!! 0%nat)
  = Some true.
Proof.
  destruct (shared_sample_last_position_wins
              (demo_scorer (λ _ _, Ok (RStruct answer_B)) 3)
              [0; 1; 0]%nat "mentions of a colour" three_samples answer_B
              0%nat 2%nat 0%nat (JInt 1))
    as (_ & Hpred & _).
  - simpl. lia.
  - intros b Hb.
    repeat (apply elem_of_cons in Hb as [->|Hb]; [simpl; lia|]).
    by apply elem_of_nil in Hb.
  - intros p w1 _. reflexivity.
  - intros [|[|[|k]]] Hk; try (by vm_compute; eauto). simpl in Hk. lia.
  - reflexivity.
  - reflexivity.
  - lia.
  - simpl. by intros ?%elem_of_nil.
  - reflexivity.
  - exact Hpred.
Defined.

(** An answer that says ["1"], as a string, for the first sample. *)
Definition answer_quoted : gmap string jvalue :=
  <["example_0" := JStr "1"]> (<["example_1" := JBool true]> ∅).

Lemma batched_positive_values_demo :
  predicted
    (heap (RecallScorer.query
             (demo_scorer (λ _ _, Ok (RStruct answer_quoted)) 2)
             [0; 1]%nat "mentions of a colour" three_samples).2
     !!! 0%nat)
  = Some false.
Proof.
  destruct (batched_positive_values
              (demo_scorer (λ _ _, Ok (RStruct answer_quoted)) 2)
              [0; 1]%nat "mentions of a colour" three_samples answer_quoted
              0%nat 0%nat (JStr "1"))
    as (_ & Hiff & [Htrue|Hfalse]).
  - simpl. lia.
  - intros b Hb.
    repeat (apply elem_of_cons in Hb as [->|Hb]; [simpl; lia|]).
    by apply elem_of_nil in Hb.
  - intros p w1 _. reflexivity.
  - intros [|[|k]] Hk; try (by vm_compute; eauto). simpl in Hk. lia.
  - reflexivity.
  - simpl. intros Hin. apply elem_of_cons in Hin as [Hin|Hin]; [discriminate|].
    by apply elem_of_nil in Hin.
  - reflexivity.
  - apply Hiff in Htrue as [Hv|[Hv|(f & Hv & _)]]; discriminate.
  - exact Hfalse.
Defined.

Lemma conforming_answer_demo :
  map (λ a : nat,
         predicted
           (heap (RecallScorer.query
                    (demo_scorer
                       (λ _ _, Ok (RStruct
                                     (conforming_answer [false; true; true])))
                       3)
                    [0; 1; 2]%nat "mentions of a colour" three_samples).2
            !!! a))
      [0; 1; 2]%nat
  = [Some false; Some true; Some true].
Proof.
  destruct (conforming_answer_round_trip
              (demo_scorer
                 (λ _ _, Ok (RStruct (conforming_answer [false; true; true])))
                 3)
              [0; 1; 2]%nat "mentions of a colour" three_samples
              [false; true; true])
    as (_ & Hpred).
  - simpl. lia.
  - apply (NoDup_seq 0 3).
  - intros b Hb. apply (elem_of_seq 0 3) in Hb. simpl. lia.
  - reflexivity.
  - intros p w1 _. reflexivity.
  - exact Hpred.
Defined.

Lemma process_batches_returns_demo :
  ∃ out w',
    RecallScorer.process_batches (demo_scorer mixed_answers 2) [1%nat]
      [[0; 1]; [2]]%nat "mentions of a colour" three_samples
    = (Ok out, w').
Proof.
  apply (proj2 (process_batches_returns_iff (demo_scorer mixed_answers 2)
                  [1%nat] [[0; 1]; [2]]%nat "mentions of a colour"
                  three_samples)).
  intros [|[|k]] batch Hk; simpl in Hk; [| |done].
  - injection Hk as <-. split; [done|].
    exists answer_pair. split; [reflexivity|].
    intros [|[|i]] Hi; try (by vm_compute; eauto). simpl in Hi. lia.
  - injection Hk as <-. split; [done|].
    exists (codes "So: 1"), 49%N.
    split; [reflexivity|]. split; [reflexivity|]. vm_compute. eauto.
Defined.

Lemma process_batches_populates_demo :
  ∃ out w',
    RecallScorer.process_batches (demo_scorer mixed_answers 2) [1%nat]
      [[0; 1]; [2]]%nat "mentions of a colour" three_samples
    = (Ok out, w')
    ∧ length out = 3%nat
    ∧ Forall (λ r, is_Some (r_predicted r)) out.
Proof.
  destruct (RecallScorer.process_batches (demo_scorer mixed_answers 2) [1%nat]
              [[0; 1]; [2]]%nat "mentions of a colour" three_samples)
    as [res w'] eqn:Hrun.
  assert (∃ out, res = Ok out) as [out ->].
  { vm_compute in Hrun. injection Hrun as <- _. eauto. }
  exists out, w'. split; [reflexivity|].
  apply (process_batches_populates _ _ _ _ _ _ _ Hrun).
  intros a Ha. apply (elem_of_seq 0 3) in Ha. simpl. lia.
Defined.

Lemma call_returns_labelled_records_demo :
  ∃ out,
    (RecallScorer.__call__ (demo_scorer mixed_answers 2) [1%nat]
       (demo_input [[ex [1]]; [ex [5]]] [ex [3]]) empty_world).1
    = Ok out
    ∧ map (λ r, mkSample (r_text r) (r_quantile r) (r_ground_truth r) None) out
      = [mkSample "3" (-1) false None; mkSample "1" 1 true None;
         mkSample "5" 2 true None]
    ∧ Forall (λ r, is_Some (r_predicted r)) out.
Proof.
  destruct (RecallScorer.__call__ (demo_scorer mixed_answers 2) [1%nat]
              (demo_input [[ex [1]]; [ex [5]]] [ex [3]]) empty_world)
    as [res w'] eqn:Hrun.
  assert (∃ out, res = Ok out) as [out ->].
  { vm_compute in Hrun. injection Hrun as <- _. eauto. }
  exists out. split; [reflexivity|].
  destruct (call_returns_labelled_records (demo_scorer mixed_answers 2)
              _ _ _ _ _ ltac:(simpl; lia) Hrun)
    as [Hlabels Hjudged].
  split; [|exact Hjudged]. rewrite Hlabels. reflexivity.
Defined.

Lemma nonpositive_batch_size_demo :
  (RecallScorer.__call__ (demo_scorer (λ _ _, Ok (RText (codes "1"))) 0) []
     (demo_input [[ex [1]]] [ex [3]]) empty_world).1
  = Raise ValueError
  ∧ (RecallScorer.__call__
       (demo_scorer (λ _ _, Ok (RText (codes "1"))) (-4)) []
       (demo_input [[ex [1]]] [ex [3]]) empty_world).1
    = Ok [].
Proof.
  split.
  - destruct (nonpositive_batch_size
                (demo_scorer (λ _ _, Ok (RText (codes "1"))) 0) []
                (demo_input [[ex [1]]] [ex [3]]) empty_world)
      as (Hzero & _).
    by rewrite (Hzero eq_refl).
  - destruct (nonpositive_batch_size
                (demo_scorer (λ _ _, Ok (RText (codes "1"))) (-4)) []
                (demo_input [[ex [1]]] [ex [3]]) empty_world)
      as (_ & Hneg & _).
    by rewrite (Hneg eq_refl).
Defined.

(** Four samples in batches of two, the second batch answered badly: two
    requests all the same. *)
Lemma call_request_count_demo :
  length (calls_of
            (trace (RecallScorer.__call__
                      (demo_scorer second_answer_malformed 2) [1%nat]
                      (demo_input [[ex [1]; ex [2]]] [ex [3]; ex [4]])
                      empty_world).2))
  = 2%nat.
Proof.
  rewrite (call_request_count (demo_scorer second_answer_malformed 2) [1%nat]
             (demo_input [[ex [1]; ex [2]]] [ex [3]; ex [4]]) empty_world);
    [reflexivity|simpl; lia].
Defined.

(** ** The script *)

Definition demo_record (layer index : Z)
    : @Script.FeatureRecord (list Z) unit :=
  {| Script.feature := {| Script.layer_index := layer;
                          Script.feature_index := index |};
     Script.extra := None;
     Script.payload := tt |}.

(** One record in layer 0, one in layer 2, none elsewhere. *)
Definition demo_from_tensor (layer : Z)
    : list (@Script.FeatureRecord (list Z) unit) :=
  if layer =? 0 then [demo_record 0 3]
  else if layer =? 2 then [demo_record 2 14]
  else [].

(** The sampler: the test examples are named after the feature. *)
Definition demo_sampling (r : @Script.FeatureRecord (list Z) unit)
    : Script.outcome (unit * string * list Z) :=
  Script.Returned
    (tt, "test of " +:+ pretty (Script.feature_index (Script.feature r)),
     [Script.feature_index (Script.feature r)]).

Definition both_files : gmap string string :=
  <["explanations/cot/layer0_feature3.txt" := "colours"]>
    (<["explanations/cot/layer2_feature14.txt" := "numbers"]> ∅).

(** The explanation of the second feature was never written. *)
Definition first_file_only : gmap string string :=
  <["explanations/cot/layer0_feature3.txt" := "colours"]> ∅.

Definition no_file : gmap string string := ∅.

Lemma collect_all_succeed_demo :
  ∃ st,
    Script.collect both_files demo_from_tensor demo_sampling
    = Script.Returned st
    ∧ Script.logged st = []
    ∧ map Script.explanation (Script.scorer_inputs st)
      = ["colours"; "numbers"].
Proof.
  destruct (Script.collect_all_succeed both_files demo_from_tensor
              demo_sampling)
    as (st & Hrun & Hlog & Hinputs).
  - intros r Hr.
    repeat (apply elem_of_cons in Hr as [->|Hr]; [by vm_compute|]).
    by apply elem_of_nil in Hr.
  - exists st. split; [exact Hrun|]. split; [exact Hlog|].
    revert Hinputs. generalize (Script.scorer_inputs st).
    intros inputs Hinputs.
    apply Forall2_cons_inv_l in Hinputs
      as (inp1 & rest1 & (c1 & ? & ? & ? & Hc1 & _ & ->) & Hrest & ->).
    apply Forall2_cons_inv_l in Hrest
      as (inp2 & rest2 & (c2 & ? & ? & ? & Hc2 & _ & ->) & Hrest & ->).
    apply Forall2_nil_inv_l in Hrest as ->.
    vm_compute in Hc1. vm_compute in Hc2.
    injection Hc1 as <-. injection Hc2 as <-. reflexivity.
Defined.

Lemma collect_never_skips_demo :
  ∃ st,
    Script.collect first_file_only demo_from_tensor demo_sampling
    = Script.Returned st
    ∧ map (λ inp, Script.feature (Script.record inp)) (Script.scorer_inputs st)
      = [Script.feature (demo_record 0 3); Script.feature (demo_record 2 14)]
    ∧ length (Script.logged st) = 1%nat.
Proof.
  assert (∃ st, Script.collect first_file_only demo_from_tensor demo_sampling
                = Script.Returned st) as [st Hrun].
  { eexists. vm_compute. reflexivity. }
  exists st. split; [exact Hrun|].
  destruct (Script.collect_never_skips first_file_only demo_from_tensor
              demo_sampling st Hrun) as [Hfeatures Hlog].
  rewrite Hfeatures, Hlog. split; by vm_compute.
Defined.

(** The second record has no explanation file: its input repeats the test
    examples and the explanation of the first. *)
Lemma failed_record_demo :
  ∃ st prev inp,
    Script.collect first_file_only demo_from_tensor demo_sampling
    = Script.Returned st
    ∧ Script.scorer_inputs st !! 0%nat = Some prev
    ∧ Script.scorer_inputs st !! 1%nat = Some inp
    ∧ Script.feature (Script.record inp) = Script.feature (demo_record 2 14)
    ∧ Script.test_examples inp = Script.test_examples prev
    ∧ Script.explanation inp = Script.explanation prev.
Proof.
  assert (∃ st, Script.collect first_file_only demo_from_tensor demo_sampling
                = Script.Returned st) as [st Hrun].
  { eexists. vm_compute. reflexivity. }
  destruct (Script.failed_record_reuses_previous first_file_only
              demo_from_tensor demo_sampling st 0%nat (demo_record 2 14)
              (Script.FileNotFoundError
                 "explanations/cot/layer2_feature14.txt") Hrun)
    as (prev & inp & Hprev & Hinp & Hfeature & Htest & _ & Hexpl).
  - by vm_compute.
  - by vm_compute.
  - exists st, prev, inp. split; [exact Hrun|]. split; [exact Hprev|].
    split; [exact Hinp|]. split; [exact Hfeature|]. split; [exact Htest|].
    rewrite Hexpl. by vm_compute.
Defined.

(** With no explanation file at all the script stops at the first record. *)
Lemma collect_raises_demo :
  Script.collect no_file demo_from_tensor demo_sampling
  = Script.Raised (Script.NameError "extra").
Proof.
  apply (proj2 (Script.collect_raises_iff no_file demo_from_tensor
                  demo_sampling (Script.NameError "extra"))).
  split; [reflexivity|].
  exists (demo_record 0 3), [demo_record 2 14].
  split; [by vm_compute|vm_compute; eauto].
Defined.

(** Whether the explanation of the second feature has been written or not
    makes no difference to what is loaded for the first. *)
Lemma explanation_files_distinct_demo :
  Script.load_explanation both_files (Script.feature (demo_record 0 3))
  = Script.load_explanation first_file_only (Script.feature (demo_record 0 3)).
Proof.
  apply (proj2 Script.explanation_files_distinct both_files first_file_only
           (Script.feature (demo_record 2 14))
           (Script.feature (demo_record 0 3))).
  - intros path Hne. unfold both_files, first_file_only.
    destruct (decide (path = "explanations/cot/layer0_feature3.txt"))
      as [->|Hne'].
    + by rewrite !lookup_insert_eq.
    + rewrite !lookup_insert_ne by (try done; intros <-; by apply Hne).
      done.
  - discriminate.
Defined.
